(** * Token-label alignment and metric post-processing

    A shallow embedding of the first-party logic of the token-classification
    notebook (ch7_Main_NLP_Tasks/Token_classification_(PyTorch).ipynb):

    - [align_labels_with_tokens], which spreads word-level label codes over
      the sub-word tokens of a sentence;
    - [postprocess] and the decoding step of [compute_metrics], which drop
      the ignored positions and turn integer codes into label names.

    Python integers are unbounded and are modelled by [Z]; Python lists are
    [list]; [None]-or-int word ids are [option Z]; a raised exception is the
    [Raise] case of [result]. *)

From Stdlib Require Import ZArith String Sorted.
From stdpp Require Import base numbers option list strings.

Local Open Scope Z_scope.

(** ** The fragment of Python the notebook relies on *)

Module Py.

(** The only exception the modelled code can raise. *)
Inductive exn : Set := IndexError.

Inductive result (A : Type) : Type :=
| Ok (a : A)
| Raise (e : exn).
Global Arguments Ok {A} a.
Global Arguments Raise {A} e.

Definition bind {A B} (m : result A) (k : A → result B) : result B :=
  match m with
  | Ok a => k a
  | Raise e => Raise e
  end.

Global Instance result_ret : MRet result := @Ok.
Global Instance result_bind : MBind result := λ A B k m, bind m k.

(** [l[i]] on a Python list: a negative index counts from the end, and an
    index outside [-len(l), len(l)) raises [IndexError]. *)
Definition getitem {A} (l : list A) (i : Z) : result A :=
  let n := Z.of_nat (length l) in
  let j := if i <? 0 then i + n else i in
  if (0 <=? j) && (j <? n) then
    match l !! Z.to_nat j with
    | Some x => Ok x
    | None => Raise IndexError
    end
  else Raise IndexError.

(** [for x in xs: body], the loop state being threaded through the body. *)
Fixpoint for_each {St A} (body : St → A → result St) (st : St)
    (xs : list A) : result St :=
  match xs with
  | [] => Ok st
  | x :: xs' => st' ← body st x; for_each body st' xs'
  end.

(** The list comprehension [[f x for x in xs if cond x]]. *)
Fixpoint comprehension {A B} (f : A → result B) (cond : A → bool)
    (xs : list A) : result (list B) :=
  match xs with
  | [] => Ok []
  | x :: xs' =>
      if cond x then
        y ← f x; ys ← comprehension f cond xs'; Ok (y :: ys)
      else comprehension f cond xs'
  end.

End Py.
Import Py.

(** ** Label alignment *)

Module Align.

(** The ignore index of the loss function. *)
Definition IGNORE : Z := -100.

(** The two variables the loop of [align_labels_with_tokens] updates. *)
Record loop_state : Type := LoopState {
  new_labels : list Z;
  current_word : option Z
}.

Definition loop_body (labels : list Z) (st : loop_state)
    (word_id : option Z) : result loop_state :=
  if bool_decide (word_id ≠ current_word st) then
    (* Start of a new word! *)
    label ← match word_id with
            | None => Ok IGNORE
            | Some w => getitem labels w
            end;
    Ok (LoopState (new_labels st ++ [label]) word_id)
  else
    match word_id with
    | None =>
        (* Special token *)
        Ok (LoopState (new_labels st ++ [IGNORE]) (current_word st))
    | Some w =>
        (* Same word as previous token *)
        label ← getitem labels w;
        (* If the label is B-XXX we change it to I-XXX *)
        let label := if label `mod` 2 =? 1 then label + 1 else label in
        Ok (LoopState (new_labels st ++ [label]) (current_word st))
    end.

Definition align_labels_with_tokens (labels : list Z)
    (word_ids : list (option Z)) : result (list Z) :=
  st ← for_each (loop_body labels) (LoopState [] None) word_ids;
  Ok (new_labels st).

End Align.
Import Align.

(** ** Post-processing for the span-level metric *)

Module Metrics.

(** [label_names] is a global of the notebook, read from the features of
    the dataset; the functions below take it as an argument.  This is the
    value the notebook prints for CoNLL-2003. *)
Definition conll2003_label_names : list string :=
  ["O"; "B-PER"; "I-PER"; "B-ORG"; "I-ORG"; "B-LOC"; "I-LOC"; "B-MISC";
   "I-MISC"]%string.

(** [predictions] and [labels] are two-dimensional integer arrays;
    [.detach().cpu().clone().numpy()] keeps their contents.  Iterating an
    array yields its rows, iterating a row yields its entries, and [zip]
    stops at the end of its shorter argument. *)
Definition postprocess (label_names : list string)
    (predictions labels : list (list Z))
  : result (list (list string) * list (list string)) :=
  (* Remove ignored index (special tokens) and convert to labels *)
  true_labels ←
    comprehension
      (λ label,
         comprehension (λ l, getitem label_names l)
           (λ l, bool_decide (l ≠ -100)) label)
      (λ _, true) labels;
  true_predictions ←
    comprehension
      (λ '(prediction, label),
         comprehension (λ '(p, l), getitem label_names p)
           (λ '(p, l), bool_decide (l ≠ -100)) (zip prediction label))
      (λ _, true) (zip predictions labels);
  Ok (true_labels, true_predictions).

Section compute_metrics.
(** The logits are floating-point scores; all the decoding step does
    with them is [np.argmax(logits, axis=-1)], which is kept abstract. *)
Context {Logit : Type} (argmax : list Logit → Z).

Definition np_argmax (logits : list (list (list Logit)))
  : list (list Z) :=
  map (map argmax) logits.

(** [compute_metrics] up to the call of the external scorer: the two
    lists handed to [metric.compute] as references and predictions. *)
Definition compute_metrics_decode (label_names : list string)
    (eval_preds : list (list (list Logit)) * list (list Z))
  : result (list (list string) * list (list string)) :=
  let '(logits, labels) := eval_preds in
  let predictions := np_argmax logits in
  (* Remove ignored index (special tokens) and convert to labels *)
  true_labels ←
    comprehension
      (λ label,
         comprehension (λ l, getitem label_names l)
           (λ l, bool_decide (l ≠ -100)) label)
      (λ _, true) labels;
  true_predictions ←
    comprehension
      (λ '(prediction, label),
         comprehension (λ '(p, l), getitem label_names p)
           (λ '(p, l), bool_decide (l ≠ -100)) (zip prediction label))
      (λ _, true) (zip predictions labels);
  Ok (true_labels, true_predictions).
End compute_metrics.

End Metrics.
Import Metrics.

(** ** Vocabulary of the statements *)

Module Spec.

(** A word id the label list can be indexed with. *)
Definition valid_word_id (labels : list Z) (o : option Z) : Prop :=
  match o with
  | None => True
  | Some w => - Z.of_nat (length labels) ≤ w < Z.of_nat (length labels)
  end.

(** The code a continuation token receives: B-XXX (odd) becomes I-XXX. *)
Definition inside (c : Z) : Z := if Z.odd c then c + 1 else c.

(** The label of one token, from the word id before it and its own. *)
Definition token_label (labels : list Z) (prev cur : option Z)
  : result Z :=
  match cur with
  | None => Ok IGNORE
  | Some w =>
      c ← getitem labels w;
      Ok (if decide (prev = Some w) then inside c else c)
  end.

(** The loop of [align_labels_with_tokens] by recursion on the map. *)
Fixpoint align_from (labels : list Z) (prev : option Z)
    (word_ids : list (option Z)) : result (list Z) :=
  match word_ids with
  | [] => Ok []
  | cur :: rest =>
      v ← token_label labels prev cur;
      vs ← align_from labels cur rest;
      Ok (v :: vs)
  end.

(** The word id preceding position [i] ([prev] before position 0). *)
Definition word_before (prev : option Z) (word_ids : list (option Z))
    (i : nat) : option Z :=
  match i with
  | O => prev
  | S j => default prev (word_ids !! j)
  end.

(** Codes [0 .. n-1] of a table of [n] label names. *)
Definition label_code (n c : Z) : Prop := 0 ≤ c < n.

(** Every beginning (odd) code of the table has its inside code. *)
Definition paired (n : Z) : Prop :=
  ∀ c, label_code n c → Z.odd c = true → label_code n (c + 1).

Definition valid_id (label_names : list string) (c : Z) : Prop :=
  label_code (Z.of_nat (length label_names)) c.

(** The name of a valid id. *)
Definition name_of (label_names : list string) (c : Z) : string :=
  nth (Z.to_nat c) label_names EmptyString.

(** The positions of a row of gold labels that are not ignored. *)
Definition kept_positions (label : list Z) : list nat :=
  filter (λ i, label !! i ≠ Some (-100)) (seq 0 (length label)).

(** The names of the codes of [codes] at the kept positions of [label]. *)
Definition row_names (name : Z → string) (codes label : list Z)
  : list string :=
  (λ i, name (nth i codes 0)) <$> kept_positions label.

(** Ids Python accepts as an index of the table, negative ones included. *)
Definition in_range (label_names : list string) (c : Z) : Prop :=
  - Z.of_nat (length label_names) ≤ c < Z.of_nat (length label_names).

(** The entry Python's indexing returns for an id in range. *)
Definition wrapped_name (label_names : list string) (c : Z) : string :=
  nth (Z.to_nat (c `mod` Z.of_nat (length label_names))) label_names
    EmptyString.

(** The codes post-processing looks up: the gold codes other than -100,
    and the predicted codes paired by [zip] with such a gold code. *)
Definition surviving_gold (labels : list (list Z)) (c : Z) : Prop :=
  ∃ r label i, labels !! r = Some label ∧ label !! i = Some c ∧ c ≠ -100.

Definition surviving_predicted (predictions labels : list (list Z))
    (c : Z) : Prop :=
  ∃ r prediction label i l,
    predictions !! r = Some prediction ∧ labels !! r = Some label
    ∧ prediction !! i = Some c ∧ label !! i = Some l ∧ l ≠ -100.

Definition surviving (predictions labels : list (list Z)) (c : Z) : Prop :=
  surviving_gold labels c ∨ surviving_predicted predictions labels c.

Definition equal_shape (predictions labels : list (list Z)) : Prop :=
  Forall2 (λ prediction label, length prediction = length label)
    predictions labels.

End Spec.
Import Spec.

(** ** The callers of the alignment and of the post-processing *)

Module Batch.

(** [enumerate(xs)]: every item with its index. *)
Definition enumerate {A} (xs : list A) : list (nat * A) := imap pair xs.

(** [tokenize_and_align_labels] calls the tokenizer, an external service,
    only to ask it for the word ids of example [i]; that answer is the
    parameter [word_ids].  The value modelled is the [new_labels] list the
    function stores under the key ["labels"]. *)
Definition tokenize_and_align_labels (word_ids : nat → list (option Z))
    (all_labels : list (list Z)) : result (list (list Z)) :=
  for_each
    (λ new_labels '(i, labels),
       row ← align_labels_with_tokens labels (word_ids i);
       Ok (new_labels ++ [row]))
    [] (enumerate all_labels).

End Batch.
Import Batch.

Module Loop.

(** The keyword arguments handed to the metric. *)
Record metric_batch : Type := MetricBatch {
  kw_predictions : list (list string);
  kw_references : list (list string)
}.

(** The end of [compute_metrics]:
    [metric.compute(predictions=true_predictions, references=true_labels)]. *)
Definition compute_metrics_call {Logit : Type} (argmax : list Logit → Z)
    (label_names : list string)
    (eval_preds : list (list (list Logit)) * list (list Z))
  : result metric_batch :=
  '(true_labels, true_predictions) ←
    compute_metrics_decode argmax label_names eval_preds;
  Ok (MetricBatch true_predictions true_labels).

(** The evaluation step of the training loop, from the gathered tensors:
    [true_predictions, true_labels = postprocess(predictions_gathered,
    labels_gathered)] followed by
    [metric.add_batch(predictions=true_predictions,
    references=true_labels)]. *)
Definition evaluation_step (label_names : list string)
    (predictions_gathered labels_gathered : list (list Z))
  : result metric_batch :=
  '(true_predictions, true_labels) ←
    postprocess label_names predictions_gathered labels_gathered;
  Ok (MetricBatch true_predictions true_labels).

End Loop.
Import Loop.

(** ** The dictionaries [id2label] and [label2id] *)

Module PyDict.

Section dict.
Context {K V : Type} `{!EqDecision K}.

(** A Python dict: its entries in insertion order, the keys distinct.
    [d[k] = v] replaces the value of a present key in place and appends a
    new key; [get] is [d[k]], [None] standing for [KeyError]. *)
Fixpoint setitem (d : list (K * V)) (k : K) (v : V) : list (K * V) :=
  match d with
  | [] => [(k, v)]
  | (k', v') :: d' =>
      if decide (k' = k) then (k, v) :: d' else (k', v') :: setitem d' k v
  end.

Fixpoint get (d : list (K * V)) (k : K) : option V :=
  match d with
  | [] => None
  | (k', v') :: d' => if decide (k' = k) then Some v' else get d' k
  end.

Definition items (d : list (K * V)) : list (K * V) := d.

(** The dict comprehension [{key x: val x for x in xs}]. *)
Definition dict_comprehension {A} (key : A → K) (val : A → V)
    (xs : list A) : list (K * V) :=
  foldl (λ d x, setitem d (key x) (val x)) [] xs.
End dict.

(** [{i: label for i, label in enumerate(label_names)}] *)
Definition id2label (label_names : list string) : list (Z * string) :=
  dict_comprehension (λ '(i, label), Z.of_nat i) (λ '(i, label), label)
    (enumerate label_names).

(** [{v: k for k, v in id2label.items()}] *)
Definition label2id (label_names : list string) : list (string * Z) :=
  dict_comprehension (λ '(k, v), v) (λ '(k, v), k)
    (items (id2label label_names)).

End PyDict.
Import PyDict.

(** ** The cell that prints the words above their labels *)

Module Display.

(** [len(s)] and [s * n]; a repetition count below one gives the empty
    string.  A character of a Python string is modelled by a character of
    [string]. *)
Definition len (s : string) : Z := Z.of_nat (String.length s).

Definition str_mul (s : string) (n : Z) : string :=
  Nat.iter (Z.to_nat n) (String.append s) EmptyString.

Record lines : Type := Lines { line1 : string; line2 : string }.

Definition lines_body (label_names : list string) (st : lines)
    (item : string * Z) : result lines :=
  let '(word, label) := item in
  full_label ← getitem label_names label;
  let max_length := len word `max` len full_label in
  Ok (Lines
        (String.append (line1 st)
           (String.append word
              (str_mul " " (max_length - len word + 1))))
        (String.append (line2 st)
           (String.append full_label
              (str_mul " " (max_length - len full_label + 1))))).

Definition label_lines (label_names : list string) (words : list string)
    (labels : list Z) : result lines :=
  for_each (lines_body label_names) (Lines EmptyString EmptyString)
    (zip words labels).

End Display.
Import Display.

(** ** Vocabulary of the further statements *)

Module Shapes.

(** The word-id map of a sentence whose word [a + i] is split into
    [S (ks !! i)] tokens. *)
Fixpoint word_runs (a : nat) (ks : list nat) : list (option Z) :=
  match ks with
  | [] => []
  | k :: ks' => replicate (S k) (Some (Z.of_nat a)) ++ word_runs (S a) ks'
  end.

(** The labels of those tokens: the word's label, then its inside code. *)
Fixpoint label_runs (labels : list Z) (ks : list nat) : list Z :=
  match labels, ks with
  | c :: labels', k :: ks' =>
      (c :: replicate k (inside c)) ++ label_runs labels' ks'
  | _, _ => []
  end.

(** Two rows of predictions that differ at ignored positions only. *)
Definition agree_on_kept (prediction1 prediction2 label : list Z) : Prop :=
  length prediction1 = length prediction2
  ∧ ∀ i l, label !! i = Some l → l ≠ -100 →
      prediction1 !! i = prediction2 !! i.

End Shapes.
Import Shapes.

Example align_notebook_output :
  align_labels_with_tokens [3; 0; 7; 0; 0; 0; 7; 0; 0]
    [None; Some 0; Some 1; Some 2; Some 3; Some 4; Some 5; Some 6; Some 7;
     Some 7; Some 8; None]
  = Ok [-100; 3; 0; 7; 0; 0; 0; 7; 0; 0; 0; -100].
Proof. reflexivity. Qed.

Example align_boycott :
  align_labels_with_tokens [0; 0; 0; 7] [Some 3; Some 3] = Ok [7; 8].
Proof. reflexivity. Qed.

Example align_out_of_range :
  align_labels_with_tokens [3; 0] [None; Some 0; Some 2] = Raise IndexError.
Proof. reflexivity. Qed.

(** ** Python indexing *)

Section getitem.
Context {A : Type}.
Implicit Types (l : list A) (i : Z) (x : A).

Lemma getitem_nonneg l i :
  0 ≤ i →
  getitem l i = match l !! Z.to_nat i with
                | Some x => Ok x
                | None => Raise IndexError
                end.
Proof.
  intros Hi. unfold getitem.
  destruct (Z.ltb_spec i 0) as [?|_]; [lia|].
  destruct (Z.leb_spec 0 i) as [_|?]; [|lia].
  destruct (Z.ltb_spec i (Z.of_nat (length l))) as [_|Hge]; [done|].
  cbn. rewrite lookup_ge_None_2; [done|lia].
Qed.

Lemma getitem_inv l i x :
  getitem l i = Ok x →
  - Z.of_nat (length l) ≤ i < Z.of_nat (length l)
  ∧ l !! Z.to_nat (i `mod` Z.of_nat (length l)) = Some x.
Proof.
  unfold getitem. set (n := Z.of_nat (length l)). intros H.
  destruct (Z.ltb_spec i 0) as [Hneg|Hpos].
  - destruct (Z.leb_spec 0 (i + n)); [|done].
    destruct (Z.ltb_spec (i + n) n); [|done]. cbn in H.
    destruct (l !! Z.to_nat (i + n)) as [y|] eqn:Hy; [|done].
    injection H as ->. split; [lia|].
    replace (i `mod` n) with (i + n); [done|].
    apply Z.mod_unique with (-1); lia.
  - destruct (Z.leb_spec 0 i); [|done].
    destruct (Z.ltb_spec i n); [|done]. cbn in H.
    destruct (l !! Z.to_nat i) as [y|] eqn:Hy; [|done].
    injection H as ->. split; [lia|].
    by rewrite Z.mod_small by lia.
Qed.

Lemma getitem_valid l i :
  - Z.of_nat (length l) ≤ i < Z.of_nat (length l) →
  ∃ x, getitem l i = Ok x.
Proof.
  intros Hi. unfold getitem. set (n := Z.of_nat (length l)) in *.
  set (j := if i <? 0 then i + n else i).
  assert (0 ≤ j < n) as Hj.
  { unfold j. destruct (Z.ltb_spec i 0); lia. }
  destruct (Z.leb_spec 0 j); [|lia].
  destruct (Z.ltb_spec j n); [|lia]. cbn.
  destruct (lookup_lt_is_Some_2 l (Z.to_nat j)) as [x ->]; [lia|].
  by exists x.
Qed.

Lemma getitem_elem_of l i x : getitem l i = Ok x → x ∈ l.
Proof.
  intros [_ H]%getitem_inv. by eapply list_elem_of_lookup_2.
Qed.
End getitem.

(** A valid id is looked up to its name. *)
Lemma getitem_name_of label_names c :
  valid_id label_names c → getitem label_names c = Ok (name_of label_names c).
Proof.
  intros [H0 Hn]. rewrite getitem_nonneg by done. unfold name_of.
  destruct (lookup_lt_is_Some_2 label_names (Z.to_nat c)) as [s Hs]; [lia|].
  rewrite Hs. f_equal. symmetry. by apply nth_lookup_Some.
Qed.

(** ** The alignment loop, one token at a time *)

Lemma bind_Ok_inv {A B} (m : result A) (k : A → result B) (b : B) :
  (m ≫= k) = Ok b → ∃ a, m = Ok a ∧ k a = Ok b.
Proof. destruct m as [a|e]; [|done]. intros H. by exists a. Qed.

Ltac bind_inv H :=
  let a := fresh "a" in
  let Ha := fresh "Ha" in
  apply bind_Ok_inv in H as (a & Ha & H).

Lemma inside_mod c : (if c `mod` 2 =? 1 then c + 1 else c) = inside c.
Proof. unfold inside. rewrite Zmod_odd. by destruct (Z.odd c). Qed.

Lemma inside_even c : Z.odd (inside c) = false.
Proof.
  unfold inside. destruct (Z.odd c) eqn:Hc; [|done].
  by rewrite Z.odd_add, Hc.
Qed.

Lemma default_last_cons {A} (p x : A) (l : list A) :
  default p (last (x :: l)) = default x (last l).
Proof.
  revert p x. induction l as [|y l IH]; intros p x; [done|].
  by rewrite last_cons_cons, !(IH _ y).
Qed.

Lemma loop_body_token labels st word_id :
  loop_body labels st word_id =
    (v ← token_label labels (current_word st) word_id;
     Ok (LoopState (new_labels st ++ [v]) word_id)).
Proof.
  unfold loop_body, token_label. case_bool_decide as Hne.
  - destruct word_id as [w|]; [|done].
    destruct (getitem labels w) as [c|e]; [|done]. cbn.
    by rewrite decide_False by done.
  - rewrite <- Hne.
    destruct word_id as [w|]; [|done].
    destruct (getitem labels w) as [c|e]; [|done]. cbn.
    by rewrite decide_True, inside_mod by done.
Qed.

Lemma for_each_align_from labels word_ids st :
  for_each (loop_body labels) st word_ids =
    (vs ← align_from labels (current_word st) word_ids;
     Ok (LoopState (new_labels st ++ vs)
           (default (current_word st) (last word_ids)))).
Proof.
  revert st. induction word_ids as [|cur rest IH]; intros st.
  - cbn. by rewrite app_nil_r; destruct st.
  - cbn [for_each align_from]. rewrite loop_body_token.
    destruct (token_label labels (current_word st) cur) as [v|e]; [|done].
    cbn. rewrite IH. cbn.
    destruct (align_from labels cur rest) as [vs|e]; [|done]. cbn.
    rewrite <- app_assoc. cbn. do 2 f_equal.
    symmetry. apply default_last_cons.
Qed.

Lemma align_labels_with_tokens_from labels word_ids :
  align_labels_with_tokens labels word_ids = align_from labels None word_ids.
Proof.
  unfold align_labels_with_tokens. rewrite for_each_align_from. cbn.
  by destruct (align_from labels None word_ids).
Qed.

Lemma align_from_app labels prev a b :
  align_from labels prev (a ++ b) =
    (oa ← align_from labels prev a;
     ob ← align_from labels (default prev (last a)) b;
     Ok (oa ++ ob)).
Proof.
  revert prev. induction a as [|cur rest IH]; intros prev.
  - cbn. by destruct (align_from labels prev b).
  - cbn [app align_from].
    destruct (token_label labels prev cur) as [v|e]; [|done]. cbn.
    rewrite IH.
    rewrite default_last_cons.
    destruct (align_from labels cur rest) as [oa|e]; [|done]. cbn.
    by destruct (align_from labels (default cur (last rest)) b).
Qed.

Lemma align_from_length labels prev word_ids out :
  align_from labels prev word_ids = Ok out →
  length out = length word_ids.
Proof.
  revert prev out. induction word_ids as [|cur rest IH]; intros prev out H.
  - by injection H as <-.
  - cbn in H. bind_inv H. bind_inv H. injection H as <-.
    cbn. f_equal. by eapply IH.
Qed.

(** Each output entry is the label of its token, computed from the word
    ids at its position and just before. *)
Lemma align_from_lookup labels prev word_ids out i cur :
  align_from labels prev word_ids = Ok out →
  word_ids !! i = Some cur →
  ∃ v, out !! i = Some v
       ∧ token_label labels (word_before prev word_ids i) cur = Ok v.
Proof.
  revert prev out i.
  induction word_ids as [|c rest IH]; intros prev out i H Hi; [done|].
  cbn in H. bind_inv H. bind_inv H. injection H as <-.
  destruct i as [|i].
  - injection Hi as ->. by exists a.
  - cbn in Hi. destruct (IH _ _ _ Ha0 Hi) as (v & Hv & Ht).
    exists v. split; [done|].
    destruct i as [|i]; [done|]. cbn in *.
    destruct (rest !! i) eqn:Hr; [done|].
    apply lookup_ge_None in Hr. apply lookup_lt_Some in Hi. lia.
Qed.

Lemma align_from_valid labels prev word_ids :
  Forall (valid_word_id labels) word_ids →
  ∃ out, align_from labels prev word_ids = Ok out.
Proof.
  intros Hv. revert prev.
  induction Hv as [|cur rest Hcur _ IH]; intros prev; [by exists []|].
  destruct (IH cur) as [vs Hvs]. cbn. rewrite Hvs.
  destruct cur as [w|]; cbn.
  - destruct (getitem_valid labels w Hcur) as [c ->]. cbn. eauto.
  - eauto.
Qed.

Lemma align_from_Ok_valid labels prev word_ids out :
  align_from labels prev word_ids = Ok out →
  Forall (valid_word_id labels) word_ids.
Proof.
  revert prev out. induction word_ids as [|cur rest IH]; intros prev out H.
  - constructor.
  - cbn in H. bind_inv H. bind_inv H. constructor; [|by eapply IH].
    destruct cur as [w|]; [|done]. cbn in Ha. bind_inv Ha.
    by apply getitem_inv in Ha1 as [? _].
Qed.

(** A run of [k] tokens of one word, entered from a different word id. *)
Lemma align_from_run labels prev w c k :
  getitem labels w = Ok c →
  prev ≠ Some w →
  align_from labels prev (replicate (S k) (Some w))
  = Ok (c :: replicate k (inside c)).
Proof.
  intros Hc Hprev.
  assert (∀ n, align_from labels (Some w) (replicate n (Some w))
               = Ok (replicate n (inside c))) as Hin.
  { induction n as [|n IH]; [done|].
    cbn. rewrite Hc. cbn. rewrite IH. cbn.
    by rewrite decide_True by done. }
  cbn. rewrite Hc. cbn. rewrite Hin. cbn.
  by rewrite decide_False by done.
Qed.

Lemma align_run_slice labels pre post w c k out :
  getitem labels w = Ok c →
  last pre ≠ Some (Some w) →
  align_labels_with_tokens labels (pre ++ replicate (S k) (Some w) ++ post)
  = Ok out →
  take (S k) (drop (length pre) out) = c :: replicate k (inside c).
Proof.
  intros Hc Hlast H. rewrite align_labels_with_tokens_from in H.
  rewrite align_from_app in H.
  apply bind_Ok_inv in H as (opre & Hpre & H).
  apply bind_Ok_inv in H as (orest & Hrest & H). injection H as <-.
  rewrite align_from_app in Hrest.
  apply bind_Ok_inv in Hrest as (orun & Hrun & Hrest).
  apply bind_Ok_inv in Hrest as (opost & _ & Hrest). injection Hrest as <-.
  rewrite (align_from_run _ _ _ c) in Hrun; [|done|].
  - injection Hrun as <-. apply align_from_length in Hpre as <-.
    rewrite drop_app_length. apply take_app_length'.
    cbn. by rewrite length_replicate.
  - destruct (last pre) as [p|]; cbn; [|done]. by intros ->.
Qed.

Lemma align_valid labels word_ids :
  Forall (valid_word_id labels) word_ids →
  ∃ out, align_labels_with_tokens labels word_ids = Ok out.
Proof.
  intros Hv. rewrite align_labels_with_tokens_from.
  by apply align_from_valid.
Qed.

Lemma valid_word_ids_run labels pre post w c k :
  getitem labels w = Ok c →
  Forall (valid_word_id labels) pre →
  Forall (valid_word_id labels) post →
  Forall (valid_word_id labels) (pre ++ replicate k (Some w) ++ post).
Proof.
  intros Hc Hpre Hpost. rewrite !Forall_app. split_and!; [done| |done].
  apply Forall_replicate. cbn. by apply getitem_inv in Hc as [? _].
Qed.

(** C1.  A word [w] with label [c] whose tokens fill [k ≥ 1] consecutive
    positions of the word-id map, the entry before them (if any) being
    another word id or the marker, receives exactly [c, c', ..., c'] at
    those positions, with [c' = c + 1] for odd [c] and [c' = c] otherwise;
    the call returns whenever the rest of the map indexes [labels]. *)
Theorem align_split_word (labels : list Z) (pre post : list (option Z))
    (w c : Z) (k : nat) :
  getitem labels w = Ok c →
  (1 ≤ k)%nat →
  last pre ≠ Some (Some w) →
  Forall (valid_word_id labels) pre →
  Forall (valid_word_id labels) post →
  ∃ out,
    align_labels_with_tokens labels (pre ++ replicate k (Some w) ++ post)
    = Ok out
    ∧ take k (drop (length pre) out)
      = c :: replicate (k - 1) (if Z.odd c then c + 1 else c).
Proof.
  intros Hc Hk Hlast Hpre Hpost.
  destruct (align_valid labels (pre ++ replicate k (Some w) ++ post))
    as [out Hout]; [by eapply valid_word_ids_run|].
  exists out. split; [done|].
  destruct k as [|k]; [lia|].
  replace (S k - 1)%nat with k by lia.
  by eapply align_run_slice.
Qed.

Lemma align_split_word_witness :
  ∃ out,
    align_labels_with_tokens [3; 0; 0; 7]
      ([None; Some 0; Some 1; Some 2] ++ replicate 2 (Some 3) ++ [None])
    = Ok out
    ∧ take 2 (drop 4 out) = [7; 8].
Proof.
  apply (align_split_word [3; 0; 0; 7] [None; Some 0; Some 1; Some 2]
           [None] 3 7 2).
  - reflexivity.
  - lia.
  - cbn. congruence.
  - repeat constructor; cbn; lia.
  - repeat constructor.
Defined.

(** C2.  On labels of a paired label space and a word-id map whose
    non-marker entries index [labels], the call returns a list as long as
    the map, with -100 at every marker position and, at a position of word
    [w], either the label of [w] or that label plus one when it is odd,
    which is again a code of the label space; on empty inputs the output
    is empty. *)
Theorem align_output_contract :
  (∀ (n : Z) (labels : list Z) (word_ids : list (option Z)),
     paired n →
     Forall (label_code n) labels →
     Forall (valid_word_id labels) word_ids →
     ∃ out,
       align_labels_with_tokens labels word_ids = Ok out
       ∧ length out = length word_ids
       ∧ (∀ i, word_ids !! i = Some None → out !! i = Some (-100))
       ∧ (∀ i w, word_ids !! i = Some (Some w) →
            ∃ c v, getitem labels w = Ok c
                   ∧ out !! i = Some v
                   ∧ (v = c ∨ (Z.odd c = true ∧ v = c + 1))
                   ∧ label_code n v))
  ∧ align_labels_with_tokens [] [] = Ok [].
Proof.
  split; [|done].
  intros n labels word_ids Hpaired Hlabels Hvalid.
  destruct (align_valid labels word_ids Hvalid) as [out Hout].
  exists out. split; [done|].
  rewrite align_labels_with_tokens_from in Hout.
  split; [by eapply align_from_length|]. split.
  - intros i Hi.
    destruct (align_from_lookup _ _ _ _ _ _ Hout Hi) as (v & Hv & Ht).
    cbn in Ht. by injection Ht as <-.
  - intros i w Hi.
    destruct (align_from_lookup _ _ _ _ _ _ Hout Hi) as (v & Hv & Ht).
    cbn in Ht. bind_inv Ht. injection Ht as <-.
    assert (label_code n a) as Ha'.
    { eapply Forall_forall; [exact Hlabels|]. by eapply getitem_elem_of. }
    exists a. eexists. split; [done|]. split; [done|].
    unfold inside. case_decide; [|by split; [left|]].
    destruct (Z.odd a) eqn:Hodd; [|by split; [left|]].
    split; [by right|]. by apply Hpaired.
Qed.

Lemma paired_odd_table (m : Z) : paired (2 * m + 1).
Proof.
  intros c [H0 Hn] Hodd. split; [lia|].
  apply Z.odd_spec in Hodd as [q ->]. lia.
Qed.

Lemma align_output_contract_witness :
  ∃ out,
    align_labels_with_tokens [3; 0; 7] [None; Some 0; Some 1; Some 2; None]
    = Ok out
    ∧ length out = 5%nat
    ∧ out !! 0%nat = Some (-100)
    ∧ ∃ c v, getitem [3; 0; 7] 2 = Ok c ∧ out !! 3%nat = Some v
             ∧ (v = c ∨ (Z.odd c = true ∧ v = c + 1)) ∧ label_code 9 v.
Proof.
  destruct (proj1 align_output_contract 9 [3; 0; 7]
              [None; Some 0; Some 1; Some 2; None])
    as (out & Hout & Hlen & Hmarker & Hword).
  - apply (paired_odd_table 4).
  - repeat constructor; cbn; lia.
  - repeat constructor; cbn; lia.
  - exists out. split; [exact Hout|]. split; [exact Hlen|].
    split; [by apply Hmarker|]. by apply Hword.
Defined.

(** One token per word: the map [a, a+1, ..., a+n-1] copies the labels. *)
Lemma align_from_one_token_per_word labels prev a n :
  prev ≠ Some (Z.of_nat a) →
  (a + n ≤ length labels)%nat →
  align_from labels prev ((λ i : nat, Some (Z.of_nat i)) <$> seq a n)
  = Ok (take n (drop a labels)).
Proof.
  revert prev a. induction n as [|n IH]; intros prev a Hprev Hlen.
  - by rewrite take_0.
  - destruct (lookup_lt_is_Some_2 labels a) as [c Hc]; [lia|].
    cbn. rewrite getitem_nonneg, Nat2Z.id, Hc by lia. cbn.
    rewrite IH by (try intros [= ?]; lia). cbn.
    rewrite decide_False by done.
    by rewrite (drop_S _ _ _ Hc).
Qed.

(** C4.  Aligning [L] against the word-id map [0, 1, ..., len(L)-1], one
    token per word and no marker, gives [L] back. *)
Theorem align_identity_map (L : list Z) :
  align_labels_with_tokens L
    ((λ i : nat, Some (Z.of_nat i)) <$> seq 0 (length L))
  = Ok L.
Proof.
  rewrite align_labels_with_tokens_from.
  rewrite align_from_one_token_per_word by (done || lia).
  by rewrite drop_0, firstn_all.
Qed.

(** C6.  The [N ≥ 1] consecutive positions of a word hold the word's own
    label [c] followed by [N - 1] even (continuation) codes, which are the
    inside code [c + 1] when [c] is a beginning (odd) code and [c] itself
    otherwise; so at most one odd code is emitted for the word, and only at
    its first token. *)
Theorem align_one_beginning_per_word (labels : list Z)
    (pre post : list (option Z)) (w c : Z) (N : nat) :
  getitem labels w = Ok c →
  (1 ≤ N)%nat →
  last pre ≠ Some (Some w) →
  Forall (valid_word_id labels) pre →
  Forall (valid_word_id labels) post →
  ∃ out tail,
    align_labels_with_tokens labels (pre ++ replicate N (Some w) ++ post)
    = Ok out
    ∧ take N (drop (length pre) out) = c :: tail
    ∧ length tail = (N - 1)%nat
    ∧ Forall (λ v, Z.odd v = false) tail
    ∧ (Z.odd c = true → tail = replicate (N - 1) (c + 1))
    ∧ (Z.odd c = false → tail = replicate (N - 1) c)
    ∧ (length (filter (λ v, Z.odd v = true) (c :: tail)) ≤ 1)%nat
    ∧ (∀ j v, (c :: tail) !! j = Some v → Z.odd v = true → j = 0%nat).
Proof.
  intros Hc HN Hlast Hpre Hpost.
  destruct (align_valid labels (pre ++ replicate N (Some w) ++ post))
    as [out Hout]; [by eapply valid_word_ids_run|].
  destruct N as [|k]; [lia|]. replace (S k - 1)%nat with k by lia.
  exists out, (replicate k (inside c)).
  assert (Forall (λ v, Z.odd v = false) (replicate k (inside c))) as Heven.
  { apply Forall_replicate, inside_even. }
  split_and!; try done.
  - by eapply align_run_slice.
  - apply length_replicate.
  - unfold inside. by intros ->.
  - unfold inside. by intros ->.
  - rewrite filter_cons.
    assert (filter (λ v, Z.odd v = true) (replicate k (inside c)) = [])
      as ->.
    { clear. induction k as [|k IH]; [done|]. cbn [replicate].
      rewrite filter_cons_False; [done|]. by rewrite inside_even. }
    case_decide; cbn; lia.
  - intros [|j] v Hv Hodd; [done|]. cbn in Hv.
    eapply Forall_lookup_1 in Heven; [|exact Hv]. cbn in Heven. congruence.
Qed.

Lemma align_one_beginning_per_word_witness :
  ∃ out tail,
    align_labels_with_tokens [0; 0; 0; 7; 0]
      ([None; Some 0; Some 1; Some 2] ++ replicate 3 (Some 3)
       ++ [Some 4; None])
    = Ok out
    ∧ take 3 (drop 4 out) = 7 :: tail
    ∧ tail = [8; 8].
Proof.
  destruct (align_one_beginning_per_word [0; 0; 0; 7; 0]
              [None; Some 0; Some 1; Some 2] [Some 4; None] 3 7 3)
    as (out & tail & Hout & Hslice & _ & _ & Hodd & _).
  - reflexivity.
  - lia.
  - cbn. congruence.
  - repeat constructor; cbn; lia.
  - repeat constructor; cbn; lia.
  - exists out, tail. split; [exact Hout|]. split; [exact Hslice|].
    by apply Hodd.
Defined.

Lemma word_before_agree (wids1 wids2 : list (option Z)) i :
  wids1 !! i = wids2 !! i →
  wids1 !! (i - 1)%nat = wids2 !! (i - 1)%nat →
  word_before None wids1 i = word_before None wids2 i.
Proof.
  intros Hi Hp. destruct i as [|j]; [done|].
  cbn. replace (S j - 1)%nat with j in Hp by lia. by rewrite Hp.
Qed.

(** C10.  The output at position [i] is a function of [labels] and of the
    word-id entries at positions [i - 1] and [i] (the marker standing before
    position 0; for [i = 0] the hypothesis on [i - 1] repeats the one on
    [i]): two maps that agree there yield the same entry at [i].  Hence a
    token whose word id differs from the entry before it, whether or not
    that word occurred earlier in the map, gets the word's original
    label. *)
Theorem align_depends_on_two_entries :
  (∀ (labels : list Z) (wids1 wids2 : list (option Z)) (i : nat),
     Forall (valid_word_id labels) wids1 →
     Forall (valid_word_id labels) wids2 →
     wids1 !! i = wids2 !! i →
     wids1 !! (i - 1)%nat = wids2 !! (i - 1)%nat →
     ∃ out1 out2,
       align_labels_with_tokens labels wids1 = Ok out1
       ∧ align_labels_with_tokens labels wids2 = Ok out2
       ∧ out1 !! i = out2 !! i)
  ∧ (∀ (labels : list Z) (word_ids : list (option Z)) (i : nat) (w : Z),
       Forall (valid_word_id labels) word_ids →
       word_ids !! i = Some (Some w) →
       ((0 < i)%nat → word_ids !! (i - 1)%nat ≠ Some (Some w)) →
       ∃ out c,
         align_labels_with_tokens labels word_ids = Ok out
         ∧ getitem labels w = Ok c
         ∧ out !! i = Some c).
Proof.
  split.
  - intros labels wids1 wids2 i Hv1 Hv2 Hi Hp.
    destruct (align_valid labels wids1 Hv1) as [out1 H1].
    destruct (align_valid labels wids2 Hv2) as [out2 H2].
    exists out1, out2. split; [done|]. split; [done|].
    rewrite align_labels_with_tokens_from in H1, H2.
    destruct (wids1 !! i) as [cur|] eqn:Hc1.
    + symmetry in Hi.
      destruct (align_from_lookup _ _ _ _ _ _ H1 Hc1) as (v1 & -> & Ht1).
      destruct (align_from_lookup _ _ _ _ _ _ H2 Hi) as (v2 & -> & Ht2).
      rewrite (word_before_agree wids1 wids2) in Ht1 by (done || congruence).
      congruence.
    + symmetry in Hi. apply lookup_ge_None in Hc1, Hi.
      apply align_from_length in H1, H2.
      rewrite !lookup_ge_None_2; [done|lia..].
  - intros labels word_ids i w Hv Hi Hp.
    destruct (align_valid labels word_ids Hv) as [out H].
    rewrite align_labels_with_tokens_from in H.
    destruct (align_from_lookup _ _ _ _ _ _ H Hi) as (v & Hout & Ht).
    cbn in Ht. apply bind_Ok_inv in Ht as (c & Hc & Ht).
    exists out, c. rewrite align_labels_with_tokens_from.
    split; [done|]. split; [done|].
    rewrite decide_False in Ht; [congruence|].
    destruct i as [|j]; [done|]. cbn.
    specialize (Hp ltac:(lia)). replace (S j - 1)%nat with j in Hp by lia.
    destruct (word_ids !! j) as [p|] eqn:Hj; cbn; [congruence|].
    apply lookup_ge_None in Hj. apply lookup_lt_Some in Hi. lia.
Qed.

Lemma align_depends_on_two_entries_witness :
  (∃ out1 out2,
     align_labels_with_tokens [1; 3] [Some 0; None; Some 0; Some 0] = Ok out1
     ∧ align_labels_with_tokens [1; 3] [Some 1; None; Some 0; None]
       = Ok out2
     ∧ out1 !! 2%nat = out2 !! 2%nat)
  ∧ (∃ out c,
       align_labels_with_tokens [1; 3] [Some 0; None; Some 0; Some 0] = Ok out
       ∧ getitem [1; 3] 0 = Ok c
       ∧ out !! 2%nat = Some c).
Proof.
  split.
  - apply (proj1 align_depends_on_two_entries [1; 3]
             [Some 0; None; Some 0; Some 0] [Some 1; None; Some 0; None]
             2%nat).
    + repeat constructor; cbn; lia.
    + repeat constructor; cbn; lia.
    + reflexivity.
    + reflexivity.
  - apply (proj2 align_depends_on_two_entries [1; 3]
             [Some 0; None; Some 0; Some 0] 2%nat 0).
    + repeat constructor; cbn; lia.
    + reflexivity.
    + intros _. cbn. congruence.
Defined.

Example align_reappearing_word :
  align_labels_with_tokens [1; 3] [Some 0; None; Some 0; Some 0]
  = Ok [1; -100; 1; 2].
Proof. reflexivity. Qed.

(** ** Comprehensions *)

Lemma comprehension_filter {A B} (f : A → result B) (cond : A → bool)
    (g : A → B) (P : A → Prop) `{!∀ x, Decision (P x)} (xs : list A) :
  (∀ x, cond x = true ↔ P x) →
  (∀ x, x ∈ xs → P x → f x = Ok (g x)) →
  comprehension f cond xs = Ok (g <$> filter P xs).
Proof.
  intros Hcond. induction xs as [|x xs IH]; intros Hf; [done|].
  cbn [comprehension]. rewrite filter_cons.
  rewrite IH by (intros y Hy; apply Hf; by right).
  destruct (cond x) eqn:Hx.
  - apply Hcond in Hx. rewrite decide_True by done.
    by rewrite (Hf x) by (done || left).
  - rewrite decide_False; [done|]. intros HP%Hcond. congruence.
Qed.

Lemma comprehension_all {A B} (f : A → result B) (g : A → B)
    (xs : list A) :
  (∀ i x, xs !! i = Some x → f x = Ok (g x)) →
  comprehension f (λ _, true) xs = Ok (g <$> xs).
Proof.
  induction xs as [|x xs IH]; intros Hf; [done|].
  cbn [comprehension]. rewrite (Hf 0%nat x) by done.
  by rewrite IH by (intros i y Hy; by apply (Hf (S i))).
Qed.

(** Whatever a comprehension returns, [f] succeeded on every kept item. *)
Lemma comprehension_Ok_inv {A B} (f : A → result B) (cond : A → bool)
    (xs : list A) (ys : list B) (x : A) :
  comprehension f cond xs = Ok ys →
  x ∈ xs → cond x = true → ∃ y, f x = Ok y.
Proof.
  revert ys. induction xs as [|x' xs IH]; intros ys H Hx Hc.
  - by apply elem_of_nil in Hx.
  - cbn in H. apply elem_of_cons in Hx as [->|Hx].
    + rewrite Hc in H. apply bind_Ok_inv in H as (y & Hy & _). eauto.
    + destruct (cond x').
      * apply bind_Ok_inv in H as (y & _ & H).
        apply bind_Ok_inv in H as (ys' & Hys & _). eauto.
      * eauto.
Qed.

Lemma not_Ok_Raise {A} (m : result A) :
  (∀ a, m ≠ Ok a) → m = Raise IndexError.
Proof. destruct m as [a|[]]; [|done]. intros H. by destruct (H a). Qed.

(** ** Kept positions *)

Lemma filter_fmap_iff {A B} (f : A → B) (P : B → Prop) (Q : A → Prop)
    `{!∀ y, Decision (P y)} `{!∀ x, Decision (Q x)} (l : list A) :
  (∀ x, Q x ↔ P (f x)) →
  filter P (f <$> l) = f <$> filter Q l.
Proof.
  intros HPQ. induction l as [|x l IH]; [done|].
  rewrite fmap_cons, !filter_cons, IH.
  destruct (decide (P (f x))), (decide (Q x)); try done; exfalso; firstorder.
Qed.

(** Filtering a list and filtering its positions select the same items. *)
Lemma fmap_filter_seq {A B} (f : A → B) (P : A → Prop)
    `{!∀ x, Decision (P x)} (l : list A) :
  ∀ (g : nat → B) (R : nat → Prop) (HR : ∀ i, Decision (R i)),
    (∀ i x, l !! i = Some x → f x = g i ∧ (P x ↔ R i)) →
    f <$> filter P l = g <$> filter R (seq 0 (length l)).
Proof.
  induction l as [|x l IH]; intros g R HR Hl; [done|].
  cbn [length seq]. rewrite <- fmap_S_seq.
  destruct (Hl 0%nat x eq_refl) as [Hf HP].
  assert (f <$> filter P l = g <$> filter R (S <$> seq 0 (length l))) as Ht.
  { rewrite (filter_fmap_iff S R (λ i, R (S i))) by done.
    rewrite <- list_fmap_compose.
    apply (IH (λ i, g (S i)) (λ i, R (S i)) _).
    intros i y Hy. by apply (Hl (S i)). }
  rewrite (filter_cons P), (filter_cons R).
  destruct (decide (P x)), (decide (R 0%nat)); try tauto.
  rewrite !fmap_cons. by f_equal.
Qed.

Lemma elem_of_kept_positions (label : list Z) (i : nat) :
  i ∈ kept_positions label ↔ ∃ l, label !! i = Some l ∧ l ≠ -100.
Proof.
  unfold kept_positions. rewrite list_elem_of_filter, elem_of_seq. split.
  - intros [Hne [_ Hlt]].
    destruct (lookup_lt_is_Some_2 label i) as [l Hl]; [lia|].
    exists l. split; [done|]. congruence.
  - intros (l & Hl & Hne). split; [congruence|].
    apply lookup_lt_Some in Hl. lia.
Qed.

Lemma filter_StronglySorted {A} (R : relation A) (P : A → Prop)
    `{!∀ x, Decision (P x)} (l : list A) :
  StronglySorted R l → StronglySorted R (filter P l).
Proof.
  induction 1 as [|x l Hl IH Hx]; [constructor|].
  rewrite filter_cons. case_decide; [|done].
  constructor; [done|].
  apply Forall_forall. intros y [_ Hy]%list_elem_of_filter.
  by eapply Forall_forall in Hx.
Qed.

Lemma seq_StronglySorted (a n : nat) : StronglySorted lt (seq a n).
Proof.
  revert a. induction n as [|n IH]; intros a; [constructor|].
  cbn. constructor; [done|].
  apply Forall_forall. intros i Hi%elem_of_seq. lia.
Qed.

Lemma kept_positions_sorted (label : list Z) :
  StronglySorted lt (kept_positions label).
Proof. apply filter_StronglySorted, seq_StronglySorted. Qed.

(** ** The rows of [postprocess] *)

Section rows.
Context (label_names : list string) (name : Z → string).

Lemma gold_row (label : list Z) :
  (∀ i l, label !! i = Some l → l ≠ -100 →
     getitem label_names l = Ok (name l)) →
  comprehension (λ l, getitem label_names l)
    (λ l, bool_decide (l ≠ -100)) label
  = Ok (row_names name label label).
Proof.
  intros Hname.
  rewrite (comprehension_filter _ _ name (λ l, l ≠ -100)).
  - f_equal. apply fmap_filter_seq. intros i l Hl.
    rewrite (nth_lookup_Some _ _ _ _ Hl). split; [done|].
    rewrite Hl. split; congruence.
  - intros l. apply bool_decide_eq_true.
  - intros l [i Hi]%list_elem_of_lookup Hne. by eapply Hname.
Qed.

Lemma predicted_row (prediction label : list Z) :
  (∀ i p l, prediction !! i = Some p → label !! i = Some l → l ≠ -100 →
     getitem label_names p = Ok (name p)) →
  comprehension (λ '(p, l), getitem label_names p)
    (λ '(p, l), bool_decide (l ≠ -100)) (zip prediction label)
  = Ok (row_names name prediction (take (length prediction) label)).
Proof.
  intros Hname.
  rewrite (comprehension_filter _ _ (λ pl, name pl.1) (λ pl, pl.2 ≠ -100)).
  - f_equal. unfold row_names, kept_positions.
    rewrite length_take, <- (length_zip_with pair).
    apply fmap_filter_seq. intros i [p l] Hi.
    apply lookup_zip_with_Some in Hi as (p' & l' & [= <- <-] & Hp & Hl).
    rewrite (nth_lookup_Some _ _ _ _ Hp). split; [done|].
    rewrite lookup_take_lt by (by eapply lookup_lt_Some).
    rewrite Hl. cbn. split; congruence.
  - intros [p l]. apply bool_decide_eq_true.
  - intros [p l] [i Hi]%list_elem_of_lookup Hne.
    apply lookup_zip_with_Some in Hi as (p' & l' & [= <- <-] & Hp & Hl).
    by eapply Hname.
Qed.

(** What [postprocess] returns when every code it looks up is named by
    [name]; nothing is assumed on the shapes. *)
Lemma postprocess_rows (predictions labels : list (list Z)) :
  (∀ r label i l, labels !! r = Some label → label !! i = Some l →
     l ≠ -100 → getitem label_names l = Ok (name l)) →
  (∀ r prediction label i p l,
     predictions !! r = Some prediction → labels !! r = Some label →
     prediction !! i = Some p → label !! i = Some l → l ≠ -100 →
     getitem label_names p = Ok (name p)) →
  postprocess label_names predictions labels
  = Ok ((λ label, row_names name label label) <$> labels,
        (λ pl, row_names name pl.1 (take (length pl.1) pl.2))
          <$> zip predictions labels).
Proof.
  intros Hgold Hpred. unfold postprocess.
  rewrite (comprehension_all _ (λ label, row_names name label label)).
  2:{ intros r label Hr. apply gold_row. intros i l. by eapply Hgold. }
  cbn.
  rewrite (comprehension_all _
             (λ pl, row_names name pl.1 (take (length pl.1) pl.2))).
  2:{ intros r [prediction label] Hr.
      apply lookup_zip_with_Some in Hr as (p' & l' & [= <- <-] & Hp & Hl).
      apply predicted_row. intros i p l. by eapply Hpred. }
  done.
Qed.
End rows.

Lemma getitem_wrapped_name label_names c :
  in_range label_names c →
  getitem label_names c = Ok (wrapped_name label_names c).
Proof.
  intros Hc. destruct (getitem_valid label_names c Hc) as [s Hs].
  rewrite Hs. f_equal. apply getitem_inv in Hs as [_ Hs].
  unfold wrapped_name. symmetry. by apply nth_lookup_Some.
Qed.

Lemma row_names_ext (name1 name2 : Z → string) (codes label : list Z) :
  (∀ i c l, codes !! i = Some c → label !! i = Some l → l ≠ -100 →
     name1 c = name2 c) →
  (length label ≤ length codes)%nat →
  row_names name1 codes label = row_names name2 codes label.
Proof.
  intros Hext Hlen. unfold row_names. apply list_fmap_ext.
  intros j i Hj. apply list_elem_of_lookup_2, elem_of_kept_positions in Hj
    as (l & Hl & Hne).
  destruct (lookup_lt_is_Some_2 codes i) as [c Hc].
  { apply lookup_lt_Some in Hl. lia. }
  rewrite !(nth_lookup_Some _ _ _ _ Hc). by eapply Hext.
Qed.

Lemma postprocess_surviving label_names name predictions labels :
  (∀ c, surviving predictions labels c →
     getitem label_names c = Ok (name c)) →
  postprocess label_names predictions labels
  = Ok ((λ label, row_names name label label) <$> labels,
        (λ pl, row_names name pl.1 (take (length pl.1) pl.2))
          <$> zip predictions labels).
Proof.
  intros Hname. apply postprocess_rows.
  - intros r label i l Hr Hi Hne. apply Hname. left.
    by exists r, label, i.
  - intros r prediction label i p l Hp Hr Hpi Hli Hne. apply Hname. right.
    by exists r, prediction, label, i, l.
Qed.

Lemma compute_metrics_decode_unfold {Logit} (argmax : list Logit → Z)
    label_names logits labels :
  compute_metrics_decode argmax label_names (logits, labels)
  = postprocess label_names (np_argmax argmax logits) labels.
Proof. reflexivity. Qed.

Lemma equal_shape_zip_lookup (predictions labels : list (list Z)) r
    prediction label :
  predictions !! r = Some prediction → labels !! r = Some label →
  zip predictions labels !! r = Some (prediction, label).
Proof.
  intros Hp Hl. apply lookup_zip_with_Some. by exists prediction, label.
Qed.

(** C3.  On equal-shaped batches whose surviving codes are valid ids,
    [postprocess], and with it the decoding step of [compute_metrics],
    returns for each row the names of the gold codes and of the predicted
    codes at the positions whose gold label is not -100, in increasing
    order of position; the two lists of a row have the same length and no
    position with gold label -100 contributes to either. *)
Theorem postprocess_keeps_unignored (label_names : list string)
    (predictions labels : list (list Z)) :
  equal_shape predictions labels →
  (∀ c, surviving predictions labels c → valid_id label_names c) →
  ∃ true_labels true_predictions,
    postprocess label_names predictions labels
    = Ok (true_labels, true_predictions)
    ∧ (∀ (Logit : Type) (argmax : list Logit → Z) logits,
         np_argmax argmax logits = predictions →
         compute_metrics_decode argmax label_names (logits, labels)
         = Ok (true_labels, true_predictions))
    ∧ length true_labels = length labels
    ∧ length true_predictions = length labels
    ∧ (∀ r prediction label,
         predictions !! r = Some prediction → labels !! r = Some label →
         ∃ gold predicted,
           true_labels !! r = Some gold
           ∧ true_predictions !! r = Some predicted
           ∧ gold = (λ i, name_of label_names (nth i label 0))
                      <$> kept_positions label
           ∧ predicted = (λ i, name_of label_names (nth i prediction 0))
                           <$> kept_positions label
           ∧ length gold = length predicted)
    ∧ (∀ label i,
         i ∈ kept_positions label ↔ ∃ l, label !! i = Some l ∧ l ≠ -100)
    ∧ (∀ label, StronglySorted lt (kept_positions label)).
Proof.
  intros Hshape Hvalid.
  pose proof (postprocess_surviving label_names (name_of label_names)
                predictions labels) as Hpost.
  rewrite Hpost by (intros c Hc; by apply getitem_name_of, Hvalid).
  eexists _, _. split; [done|]. split.
  { intros Logit argmax logits <-.
    rewrite compute_metrics_decode_unfold.
    apply postprocess_surviving.
    intros c Hc. by apply getitem_name_of, Hvalid. }
  split; [by rewrite length_fmap|]. split.
  { rewrite length_fmap, length_zip_with.
    apply Forall2_length in Hshape. lia. }
  split; [|split; [apply elem_of_kept_positions|apply kept_positions_sorted]].
  intros r prediction label Hp Hl.
  rewrite !list_lookup_fmap, Hl.
  rewrite (equal_shape_zip_lookup _ _ _ _ _ Hp Hl). cbn.
  eapply Forall2_lookup_lr in Hshape; [|done..]. cbn in Hshape.
  rewrite Hshape, firstn_all.
  eexists _, _. split; [done|]. split; [done|].
  unfold row_names. split; [done|]. split; [done|].
  by rewrite !length_fmap.
Qed.

(** Lookups in explicit lists, enumerated position by position. *)
Ltac enum_lookups :=
  repeat match goal with
         | H : [] !! _ = Some _ |- _ => by rewrite lookup_nil in H
         | H : (_ :: _) !! ?i = Some _ |- _ => destruct i; simplify_eq /=
         end.

Ltac solve_surviving :=
  let c := fresh "c" in
  intros c [(? & ? & ? & ? & ? & ?)|(? & ? & ? & ? & ? & ? & ? & ? & ? & ?)];
  enum_lookups; unfold valid_id, in_range, label_code; cbn; lia.

Lemma postprocess_keeps_unignored_witness :
  ∃ true_labels true_predictions,
    postprocess conll2003_label_names
      [[0; 3; 0; 5]; [4; 1; 2; 0]] [[-100; 3; 0; -100]; [-100; 1; 2; -100]]
    = Ok (true_labels, true_predictions)
    ∧ true_labels !! 0%nat = Some ["B-ORG"; "O"]%string
    ∧ true_predictions !! 0%nat = Some ["B-ORG"; "O"]%string.
Proof.
  destruct (postprocess_keeps_unignored conll2003_label_names
              [[0; 3; 0; 5]; [4; 1; 2; 0]]
              [[-100; 3; 0; -100]; [-100; 1; 2; -100]])
    as (tl & tp & Hpost & _ & _ & _ & Hrows & _).
  - repeat constructor.
  - solve_surviving.
  - exists tl, tp. split; [exact Hpost|].
    destruct (Hrows 0%nat [0; 3; 0; 5] [-100; 3; 0; -100] eq_refl eq_refl)
      as (gold & predicted & Hg & Hp & -> & -> & _).
    split; [exact Hg|exact Hp].
Defined.

Lemma row_names_all (name : Z → string) (codes label : list Z) :
  length codes = length label →
  Forall (λ l, l ≠ -100) label →
  row_names name codes label = name <$> codes.
Proof.
  intros Hlen Hne. unfold row_names, kept_positions. rewrite <- Hlen.
  rewrite <- (fmap_filter_seq name (λ _, True) codes).
  - f_equal. clear. induction codes as [|c codes IH]; [done|].
    by rewrite filter_cons_True, IH.
  - intros i c Hc. rewrite (nth_lookup_Some _ _ _ _ Hc). split; [done|].
    split; [|done]. intros _.
    destruct (lookup_lt_is_Some_2 label i) as [l Hl].
    { apply lookup_lt_Some in Hc. lia. }
    rewrite Hl. eapply Forall_lookup_1 in Hne; [|exact Hl]. cbn in Hne.
    congruence.
Qed.

(** C8.  On equal-shaped batches of valid ids without any -100 among the
    gold labels, [postprocess] returns the rows of [labels] and of
    [predictions] unchanged in length and order, each code replaced by its
    name. *)
Theorem postprocess_without_ignored (label_names : list string)
    (predictions labels : list (list Z)) :
  equal_shape predictions labels →
  Forall (Forall (λ l, l ≠ -100)) labels →
  Forall (Forall (valid_id label_names)) labels →
  Forall (Forall (valid_id label_names)) predictions →
  postprocess label_names predictions labels
  = Ok (map (map (name_of label_names)) labels,
        map (map (name_of label_names)) predictions).
Proof.
  intros Hshape Hne Hvl Hvp.
  rewrite (postprocess_surviving label_names (name_of label_names)).
  - do 2 f_equal.
    + apply list_fmap_ext. intros r label Hr.
      apply row_names_all; [done|]. by eapply Forall_lookup_1 in Hne.
    + apply list_eq. intros r. rewrite !list_lookup_fmap.
      destruct (predictions !! r) as [prediction|] eqn:Hp.
      * destruct (Forall2_lookup_l _ _ _ _ _ Hshape Hp)
          as (label & Hl & Hlen).
        rewrite (equal_shape_zip_lookup _ _ _ _ _ Hp Hl). cbn.
        rewrite Hlen, firstn_all. f_equal.
        apply row_names_all; [done|]. by eapply Forall_lookup_1 in Hne.
      * rewrite lookup_ge_None_2; [done|].
        apply lookup_ge_None in Hp. rewrite length_zip_with. lia.
  - intros c [(r & label & i & Hr & Hi & _)
             |(r & prediction & label & i & l & Hr & _ & Hi & _)];
      apply getitem_name_of.
    + eapply Forall_lookup_1 in Hvl; [|exact Hr].
      by eapply Forall_lookup_1 in Hvl.
    + eapply Forall_lookup_1 in Hvp; [|exact Hr].
      by eapply Forall_lookup_1 in Hvp.
Qed.

Lemma postprocess_without_ignored_witness :
  postprocess conll2003_label_names [[3; 0; 0]; [1; 2; 0]]
    [[3; 0; 7]; [1; 2; 0]]
  = Ok ([["B-ORG"; "O"; "B-MISC"]; ["B-PER"; "I-PER"; "O"]]%string,
        [["B-ORG"; "O"; "O"]; ["B-PER"; "I-PER"; "O"]]%string).
Proof.
  apply (postprocess_without_ignored conll2003_label_names
           [[3; 0; 0]; [1; 2; 0]] [[3; 0; 7]; [1; 2; 0]]).
  - repeat constructor.
  - repeat constructor; lia.
  - repeat constructor; cbn; lia.
  - repeat constructor; cbn; lia.
Defined.

(** C9.  The decoding written inline in [compute_metrics] and the function
    [postprocess] compute the same pair of lists from the same integer
    arrays and label-name table. *)
Theorem compute_metrics_decode_postprocess (Logit : Type)
    (argmax : list Logit → Z) (label_names : list string)
    (logits : list (list (list Logit))) (labels : list (list Z)) :
  compute_metrics_decode argmax label_names (logits, labels)
  = postprocess label_names (np_argmax argmax logits) labels.
Proof.
  unfold compute_metrics_decode, postprocess.
  destruct (comprehension _ _ labels) as [true_labels|e]; [|done].
  cbn. by destruct (comprehension _ _ (zip _ labels)).
Qed.

(** C5 fails on the code: batches of shapes (2,3) and (2,4) are
    post-processed without any error. *)
Lemma postprocess_shape_mismatch_returns :
  ¬ equal_shape [[3; 0; 0]; [0; 0; 0]] [[3; 0; 7; -100]; [0; 0; 0; 0]]
  ∧ postprocess conll2003_label_names [[3; 0; 0]; [0; 0; 0]]
      [[3; 0; 7; -100]; [0; 0; 0; 0]]
    = Ok ([["B-ORG"; "O"; "B-MISC"]; ["O"; "O"; "O"; "O"]]%string,
          [["B-ORG"; "O"; "O"]; ["O"; "O"; "O"]]%string).
Proof.
  split; [|reflexivity].
  intros H. apply Forall2_cons_1 in H as [H _]. done.
Qed.

Example postprocess_row_mismatch_returns :
  postprocess conll2003_label_names [[3; 0]] [[3; 0]; [1; 2]]
  = Ok ([["B-ORG"; "O"]; ["B-PER"; "I-PER"]]%string,
        [["B-ORG"; "O"]]%string).
Proof. reflexivity. Qed.

(** C5, amended.  [postprocess] makes no shape check: whatever the two
    shapes, if the surviving codes are valid ids it returns; [true_labels]
    has one row per row of [labels], named from the whole row, and
    [true_predictions] one row per pair of [zip predictions labels], named
    from the positions the two rows have in common. *)
Theorem postprocess_no_shape_check (label_names : list string)
    (predictions labels : list (list Z)) :
  (∀ c, surviving predictions labels c → valid_id label_names c) →
  ∃ true_labels true_predictions,
    postprocess label_names predictions labels
    = Ok (true_labels, true_predictions)
    ∧ true_labels
      = (λ label, row_names (name_of label_names) label label) <$> labels
    ∧ true_predictions
      = (λ '(prediction, label),
           row_names (name_of label_names) prediction
             (take (length prediction) label))
          <$> zip predictions labels
    ∧ length true_labels = length labels
    ∧ length true_predictions
      = (length predictions `min` length labels)%nat.
Proof.
  intros Hvalid.
  rewrite (postprocess_surviving label_names (name_of label_names))
    by (intros c Hc; by apply getitem_name_of, Hvalid).
  eexists _, _. split; [done|]. split; [done|]. split.
  - apply list_fmap_ext. by intros r [prediction label] _.
  - by rewrite !length_fmap, length_zip_with.
Qed.

Lemma postprocess_no_shape_check_witness :
  ∃ true_labels true_predictions,
    postprocess conll2003_label_names [[3; 0; 0]; [0; 0; 0]]
      [[3; 0; 7; -100]; [0; 0; 0; 0]]
    = Ok (true_labels, true_predictions)
    ∧ length true_labels = 2%nat
    ∧ length true_predictions = 2%nat.
Proof.
  destruct (postprocess_no_shape_check conll2003_label_names
              [[3; 0; 0]; [0; 0; 0]] [[3; 0; 7; -100]; [0; 0; 0; 0]])
    as (tl & tp & Hpost & _ & _ & Hl & Hp).
  - solve_surviving.
  - exists tl, tp. split; [exact Hpost|]. split; [exact Hl|exact Hp].
Defined.

(** C7 fails on the code: the codes -1 and -2 are no ids of the table, yet
    they are named, counting from the end of the table. *)
Lemma postprocess_negative_code_named :
  ¬ valid_id conll2003_label_names (-1)
  ∧ ¬ valid_id conll2003_label_names (-2)
  ∧ postprocess conll2003_label_names [[-1; 0]] [[0; -2]]
    = Ok ([["O"; "B-MISC"]]%string, [["I-MISC"; "O"]]%string).
Proof.
  split_and!; [| |reflexivity]; unfold valid_id, label_code; cbn; lia.
Qed.

Lemma postprocess_Ok_in_range label_names predictions labels out c :
  postprocess label_names predictions labels = Ok out →
  surviving predictions labels c → in_range label_names c.
Proof.
  unfold postprocess. intros H Hc.
  apply bind_Ok_inv in H as (tl & Htl & H).
  apply bind_Ok_inv in H as (tp & Htp & _).
  destruct Hc as [(r & label & i & Hr & Hi & Hne)
                 |(r & prediction & label & i & l & Hp & Hr & Hi & Hl & Hne)].
  - eapply (comprehension_Ok_inv _ _ _ _ label) in Htl
      as [row Hrow]; [|by eapply list_elem_of_lookup_2|done].
    eapply (comprehension_Ok_inv _ _ _ _ c) in Hrow
      as [s Hs]; [|by eapply list_elem_of_lookup_2|by apply bool_decide_eq_true].
    by apply getitem_inv in Hs as [? _].
  - eapply (comprehension_Ok_inv _ _ _ _ (prediction, label)) in Htp
      as [row Hrow]; [| |done].
    2:{ eapply list_elem_of_lookup_2. by apply equal_shape_zip_lookup. }
    eapply (comprehension_Ok_inv _ _ _ _ (c, l)) in Hrow
      as [s Hs]; [| |by apply bool_decide_eq_true].
    2:{ eapply list_elem_of_lookup_2, lookup_zip_with_Some.
        by exists c, l. }
    by apply getitem_inv in Hs as [? _].
Qed.

(** C7, amended.  With [n] names in the table, a surviving code outside
    [-n, n) makes [postprocess] fail with [IndexError]; when every
    surviving code lies in [-n, n) it returns, and a negative code [c] is
    given the name at index [n + c] of the table. *)
Theorem postprocess_code_range (label_names : list string)
    (predictions labels : list (list Z)) :
  ((∃ c, surviving predictions labels c ∧ ¬ in_range label_names c) →
   postprocess label_names predictions labels = Raise IndexError)
  ∧ ((∀ c, surviving predictions labels c → in_range label_names c) →
     postprocess label_names predictions labels
     = Ok ((λ label, row_names (wrapped_name label_names) label label)
             <$> labels,
           (λ '(prediction, label),
              row_names (wrapped_name label_names) prediction
                (take (length prediction) label))
             <$> zip predictions labels))
  ∧ (∀ c, - Z.of_nat (length label_names) ≤ c < 0 →
       wrapped_name label_names c
       = nth (Z.to_nat (Z.of_nat (length label_names) + c)) label_names
           EmptyString).
Proof.
  split_and!.
  - intros (c & Hc & Hout). apply not_Ok_Raise. intros out Hpost.
    apply Hout. by eapply postprocess_Ok_in_range.
  - intros Hin.
    rewrite (postprocess_surviving label_names (wrapped_name label_names))
      by (intros c Hc; by apply getitem_wrapped_name, Hin).
    do 2 f_equal. apply list_fmap_ext. by intros r [prediction label] _.
  - intros c Hc. unfold wrapped_name. do 2 f_equal.
    symmetry. apply Z.mod_unique with (-1); lia.
Qed.

Lemma postprocess_code_range_witness :
  postprocess conll2003_label_names [[9; 0]] [[0; -100]] = Raise IndexError
  ∧ postprocess conll2003_label_names [[-9; 0]] [[8; -100]]
    = Ok ([["I-MISC"]]%string, [["O"]]%string).
Proof.
  split.
  - apply (proj1 (postprocess_code_range conll2003_label_names
                    [[9; 0]] [[0; -100]])).
    exists 9. split.
    + right. exists 0%nat, [9; 0], [0; -100], 0%nat, 0. by split_and!.
    + unfold in_range. cbn. lia.
  - apply (proj1 (proj2 (postprocess_code_range conll2003_label_names
                           [[-9; 0]] [[8; -100]]))).
    solve_surviving.
Defined.

(** ** Further properties of the alignment *)

Lemma getitem_Raise_inv {A} (l : list A) (i : Z) (e : exn) :
  getitem l i = Raise e →
  i < - Z.of_nat (length l) ∨ Z.of_nat (length l) ≤ i.
Proof.
  intros H.
  destruct (decide (- Z.of_nat (length l) ≤ i < Z.of_nat (length l)))
    as [Hin|Hout]; [|lia].
  destruct (getitem_valid l i Hin) as [x Hx]. congruence.
Qed.

Lemma align_from_Raise_inv labels prev word_ids e :
  align_from labels prev word_ids = Raise e →
  ∃ i w, word_ids !! i = Some (Some w)
         ∧ (w < - Z.of_nat (length labels) ∨ Z.of_nat (length labels) ≤ w).
Proof.
  revert prev. induction word_ids as [|cur rest IH]; intros prev H; [done|].
  cbn in H. destruct (token_label labels prev cur) as [v|e'] eqn:Ht.
  - cbn in H. destruct (align_from labels cur rest) as [vs|e'] eqn:Hr;
      [done|].
    destruct e, e'. destruct (IH _ Hr) as (i & w & Hi & Hw).
    by exists (S i), w.
  - destruct cur as [w|]; [|done]. cbn in Ht.
    destruct (getitem labels w) as [c|e''] eqn:Hg; [done|].
    exists 0%nat, w. split; [done|]. by eapply getitem_Raise_inv.
Qed.

(** X1.  The call raises [IndexError] exactly when some entry of the
    word-id map is a word id outside [-len(labels), len(labels)); on every
    other map it returns. *)
Theorem align_raises_iff (labels : list Z) (word_ids : list (option Z)) :
  (align_labels_with_tokens labels word_ids = Raise IndexError
   ↔ ∃ i w, word_ids !! i = Some (Some w)
            ∧ (w < - Z.of_nat (length labels)
               ∨ Z.of_nat (length labels) ≤ w))
  ∧ ((∃ out, align_labels_with_tokens labels word_ids = Ok out)
     ↔ Forall (valid_word_id labels) word_ids).
Proof.
  rewrite align_labels_with_tokens_from. split; split.
  - apply align_from_Raise_inv.
  - intros (i & w & Hi & Hw). apply not_Ok_Raise. intros out Hout.
    apply align_from_Ok_valid in Hout.
    eapply Forall_lookup_1 in Hout; [|exact Hi]. cbn in Hout. lia.
  - intros [out Hout]. by eapply align_from_Ok_valid.
  - apply align_from_valid.
Qed.



Lemma align_ignore_marker (labels : list Z) (word_ids : list (option Z))
    (out : list Z) (i : nat) :
  Forall (λ c, 0 ≤ c) labels →
  align_labels_with_tokens labels word_ids = Ok out →
  out !! i = Some (-100) ↔ word_ids !! i = Some None.
Proof.
  intros Hpos. rewrite align_labels_with_tokens_from. intros Hout. split.
  - intros Hi.
    destruct (word_ids !! i) as [cur|] eqn:Hw.
    + destruct (align_from_lookup _ _ _ _ _ _ Hout Hw) as (v & Hv & Ht).
      destruct cur as [w|]; [|done]. exfalso.
      cbn in Ht. apply bind_Ok_inv in Ht as (c & Hc & Ht).
      assert (0 ≤ c) as Hc0.
      { eapply Forall_forall in Hpos; [exact Hpos|].
        by eapply getitem_elem_of. }
      assert (v = -100) as -> by congruence.
      unfold inside in Ht. case_decide; [destruct (Z.odd c)|];
        injection Ht as Ht; lia.
    + apply lookup_ge_None in Hw. apply align_from_length in Hout.
      apply lookup_lt_Some in Hi. lia.
  - intros Hw.
    destruct (align_from_lookup _ _ _ _ _ _ Hout Hw) as (v & Hv & Ht).
    cbn in Ht. by injection Ht as <-.
Qed.

(** X3.  When no word label is negative, the aligned label is [-100] at the
    marker positions and nowhere else. *)
Theorem align_ignore_iff_marker (labels : list Z)
    (word_ids : list (option Z)) (out : list Z) (i : nat) :
  Forall (λ c, 0 ≤ c) labels →
  align_labels_with_tokens labels word_ids = Ok out →
  out !! i = Some (-100) ↔ word_ids !! i = Some None.
Proof. apply align_ignore_marker. Qed.

Lemma align_ignore_iff_marker_witness :
  [-100; 3; 0; 7] !! 0%nat = Some (-100)
  ↔ [None; Some 0; Some 1; Some 2] !! 0%nat = Some None.
Proof.
  apply (align_ignore_iff_marker [3; 0; 7]).
  - repeat constructor; lia.
  - reflexivity.
Defined.

Example align_negative_label_ignored :
  align_labels_with_tokens [-101] [Some 0; Some 0] = Ok [-101; -100].
Proof. reflexivity. Qed.

Lemma bind_Ok_l {A B} (a : A) (k : A → result B) : (Ok a ≫= k) = k a.
Proof. reflexivity. Qed.

Lemma align_from_markers labels prev m :
  align_from labels prev (replicate m None) = Ok (replicate m (-100)).
Proof.
  revert prev. induction m as [|m IH]; intros prev; [done|].
  cbn. by rewrite IH.
Qed.

Lemma default_last_replicate {A} (p x : A) (k : nat) :
  default p (last (replicate (S k) x)) = x.
Proof.
  revert p. induction k as [|k IH]; intros p; [reflexivity|].
  change (replicate (S (S k)) x) with (x :: replicate (S k) x).
  by rewrite default_last_cons.
Qed.

Lemma align_from_word_runs labels ks :
  ∀ a prev tail tail_out,
    prev ≠ Some (Z.of_nat a) →
    (a + length ks ≤ length labels)%nat →
    (∀ p, align_from labels p tail = Ok tail_out) →
    align_from labels prev (word_runs a ks ++ tail)
    = Ok (label_runs (drop a labels) ks ++ tail_out).
Proof.
  induction ks as [|k ks IH]; intros a prev tail tail_out Hprev Hlen Htail.
  - cbn. rewrite Htail. by destruct (drop a labels).
  - cbn [word_runs length] in *.
    destruct (lookup_lt_is_Some_2 labels a) as [c Hc]; [lia|].
    rewrite (drop_S _ _ _ Hc). cbn [label_runs].
    rewrite <- !app_assoc, align_from_app.
    rewrite (align_from_run labels prev (Z.of_nat a) c k); [|..|done].
    2:{ by rewrite getitem_nonneg, Nat2Z.id, Hc by lia. }
    rewrite bind_Ok_l. cbv beta. rewrite default_last_replicate.
    rewrite (IH (S a) _ tail tail_out); [done|..|done].
    + intros [= ?]. lia.
    + lia.
Qed.

Lemma align_sentence (labels : list Z) (ks : list nat) (m m' : nat) :
  length ks = length labels →
  align_labels_with_tokens labels
    (replicate m None ++ word_runs 0 ks ++ replicate m' None)
  = Ok (replicate m (-100) ++ label_runs labels ks ++ replicate m' (-100)).
Proof.
  intros Hlen. rewrite align_labels_with_tokens_from, align_from_app.
  rewrite align_from_markers, bind_Ok_l. cbv beta.
  rewrite (align_from_word_runs labels ks 0 _ _ (replicate m' (-100))).
  - done.
  - destruct m as [|m]; [done|]. by rewrite default_last_replicate.
  - lia.
  - intros p. apply align_from_markers.
Qed.

(** X4.  On the word-id map of a whole sentence, [m] markers, then the
    words [0, 1, ...] in order, word [i] split into [ks[i] + 1] tokens, then
    [m'] markers, the aligned labels are [-100] for the markers and, for
    each word, its label followed by [ks[i]] copies of its inside code. *)
Theorem align_sentence_map (labels : list Z) (ks : list nat) (m m' : nat) :
  length ks = length labels →
  align_labels_with_tokens labels
    (replicate m None ++ word_runs 0 ks ++ replicate m' None)
  = Ok (replicate m (-100) ++ label_runs labels ks ++ replicate m' (-100)).
Proof. apply align_sentence. Qed.

Lemma filter_odd_replicate_even (k : nat) (c : Z) :
  Z.odd c = false → filter (λ v, Z.odd v = true) (replicate k c) = [].
Proof.
  intros Hc. induction k as [|k IH]; [done|]. cbn [replicate].
  rewrite filter_cons_False; [done|]. congruence.
Qed.

Lemma filter_odd_label_runs (labels : list Z) (ks : list nat) :
  length ks = length labels →
  filter (λ v, Z.odd v = true) (label_runs labels ks)
  = filter (λ v, Z.odd v = true) labels.
Proof.
  revert ks. induction labels as [|c labels IH]; intros [|k ks] Hlen;
    try done.
  cbn [label_runs]. rewrite <- app_comm_cons, !filter_cons, filter_app.
  rewrite filter_odd_replicate_even by apply inside_even.
  rewrite IH by (cbn in Hlen; lia). done.
Qed.

(** X14.  On such a sentence map the aligned labels contain the odd
    (beginning) codes of the word labels, in the same order and as many:
    splitting words into several tokens neither adds nor removes the
    beginning of a span. *)
Theorem align_preserves_beginnings (labels : list Z) (ks : list nat)
    (m m' : nat) :
  length ks = length labels →
  ∃ out,
    align_labels_with_tokens labels
      (replicate m None ++ word_runs 0 ks ++ replicate m' None)
    = Ok out
    ∧ filter (λ v, Z.odd v = true) out
      = filter (λ v, Z.odd v = true) labels.
Proof.
  intros Hlen. rewrite align_sentence by done. eexists. split; [done|].
  rewrite !filter_app, !filter_odd_replicate_even by done.
  by rewrite app_nil_r, filter_odd_label_runs.
Qed.

Lemma align_preserves_beginnings_witness :
  ∃ out,
    align_labels_with_tokens [3; 0; 7]
      (replicate 1 None ++ word_runs 0 [2; 0; 1]%nat ++ replicate 1 None)
    = Ok out
    ∧ filter (λ v, Z.odd v = true) out
      = filter (λ v, Z.odd v = true) [3; 0; 7].
Proof.
  apply (align_preserves_beginnings [3; 0; 7] [2; 0; 1]%nat 1 1).
  reflexivity.
Defined.

Lemma align_sentence_map_witness :
  align_labels_with_tokens [3; 0; 7]
    (replicate 1 None ++ word_runs 0 [0; 0; 1]%nat ++ replicate 1 None)
  = Ok (replicate 1 (-100) ++ label_runs [3; 0; 7] [0; 0; 1]%nat
        ++ replicate 1 (-100)).
Proof. apply (align_sentence_map [3; 0; 7] [0; 0; 1]%nat 1 1). reflexivity. Defined.

(** ** The batch of examples *)

Lemma for_each_append {A B} (body : list B → A → result (list B))
    (f : A → result B) (xs : list A) (acc : list B) :
  (∀ acc x, body acc x = (y ← f x; Ok (acc ++ [y]))) →
  for_each body acc xs
  = (ys ← comprehension f (λ _, true) xs; Ok (acc ++ ys)).
Proof.
  intros Hbody. revert acc.
  induction xs as [|x xs IH]; intros acc; cbn.
  - by rewrite app_nil_r.
  - rewrite Hbody. destruct (f x) as [y|e]; [|done]. cbn.
    rewrite IH. destruct (comprehension f _ xs) as [ys|e]; [|done]. cbn.
    by rewrite <- app_assoc.
Qed.

Lemma comprehension_Forall2 {A B} (f : A → result B) (xs : list A)
    (ys : list B) :
  comprehension f (λ _, true) xs = Ok ys
  ↔ Forall2 (λ x y, f x = Ok y) xs ys.
Proof.
  revert ys. induction xs as [|x xs IH]; intros ys; cbn.
  - split; [by intros [= <-]|by intros ->%Forall2_nil_inv_l].
  - split.
    + intros H. apply bind_Ok_inv in H as (y & Hy & H).
      apply bind_Ok_inv in H as (ys' & Hys & H). injection H as <-.
      constructor; [done|]. by apply IH.
    + intros (y & ys' & Hy & Hys & ->)%Forall2_cons_inv_l.
      apply IH in Hys. by rewrite Hy, Hys.
Qed.

Lemma tokenize_and_align_labels_comprehension word_ids all_labels :
  tokenize_and_align_labels word_ids all_labels
  = comprehension
      (λ il : nat * list Z, align_labels_with_tokens il.2 (word_ids il.1))
      (λ _, true) (enumerate all_labels).
Proof.
  unfold tokenize_and_align_labels.
  rewrite (for_each_append _
             (λ il : nat * list Z,
                align_labels_with_tokens il.2 (word_ids il.1)))
    by (by intros acc [i labels]).
  by destruct (comprehension _ _ _).
Qed.

(** X5.  [tokenize_and_align_labels] returns one row per example, row [i]
    being the alignment of the labels of example [i] against the word ids
    the tokenizer reports for [i]; it returns exactly when every example's
    word ids index that example's labels, and on an empty batch it returns
    the empty list. *)
Theorem tokenize_and_align_labels_rows (word_ids : nat → list (option Z))
    (all_labels : list (list Z)) :
  (∀ rows,
     tokenize_and_align_labels word_ids all_labels = Ok rows
     ↔ length rows = length all_labels
       ∧ ∀ i labels, all_labels !! i = Some labels →
           ∃ row, rows !! i = Some row
                  ∧ align_labels_with_tokens labels (word_ids i) = Ok row)
  ∧ ((∃ rows, tokenize_and_align_labels word_ids all_labels = Ok rows)
     ↔ ∀ i labels, all_labels !! i = Some labels →
         Forall (valid_word_id labels) (word_ids i))
  ∧ tokenize_and_align_labels word_ids [] = Ok [].
Proof.
  assert (∀ rows,
     tokenize_and_align_labels word_ids all_labels = Ok rows
     ↔ length rows = length all_labels
       ∧ ∀ i labels, all_labels !! i = Some labels →
           ∃ row, rows !! i = Some row
                  ∧ align_labels_with_tokens labels (word_ids i) = Ok row)
    as Hrows.
  { intros rows. rewrite tokenize_and_align_labels_comprehension.
    rewrite comprehension_Forall2, Forall2_same_length_lookup.
    unfold enumerate. rewrite length_imap. split.
    - intros [Hlen Hall]. split; [done|]. intros i labels Hi.
      destruct (lookup_lt_is_Some_2 rows i) as [row Hrow].
      { apply lookup_lt_Some in Hi. lia. }
      exists row. split; [done|].
      apply (Hall i (i, labels) row); [|done].
      by rewrite list_lookup_imap, Hi.
    - intros [Hlen Hall]. split; [done|]. intros i [j labels] row Hi Hrow.
      rewrite list_lookup_imap in Hi.
      destruct (all_labels !! i) as [labels'|] eqn:Hl; [|done].
      injection Hi as <- <-.
      destruct (Hall i labels' Hl) as (row' & Hrow' & Halign). cbn.
      congruence. }
  split; [exact Hrows|]. split; [|done]. split.
  - intros [rows [_ Hall]%Hrows] i labels Hi.
    destruct (Hall i labels Hi) as (row & _ & Hrow).
    rewrite align_labels_with_tokens_from in Hrow.
    by eapply align_from_Ok_valid.
  - intros Hvalid.
    rewrite tokenize_and_align_labels_comprehension.
    assert (∀ xs : list (nat * list Z),
              (∀ il, il ∈ xs → Forall (valid_word_id il.2) (word_ids il.1)) →
              ∃ rows,
                comprehension
                  (λ il : nat * list Z,
                     align_labels_with_tokens il.2 (word_ids il.1))
                  (λ _, true) xs = Ok rows) as Hall.
    { induction xs as [|x xs IH]; intros Hxs; [by exists []|].
      destruct (align_valid x.2 (word_ids x.1)) as [row Hrow].
      { apply Hxs. by left. }
      destruct IH as [rows Hrows'].
      { intros il Hil. apply Hxs. by right. }
      exists (row :: rows). cbn. by rewrite Hrow, Hrows'. }
    apply Hall. intros [i labels] [j Hj]%list_elem_of_lookup.
    unfold enumerate in Hj. rewrite list_lookup_imap in Hj.
    destruct (all_labels !! j) as [labels'|] eqn:Hl; [|done].
    injection Hj as <- <-. by apply Hvalid.
Qed.

Example tokenize_and_align_labels_notebook :
  tokenize_and_align_labels
    (λ i, match i with
          | O => [None; Some 0; Some 1; Some 2; Some 3; Some 4; Some 5;
                  Some 6; Some 7; Some 7; Some 8; None]
          | _ => [None; Some 0; Some 1; None]
          end)
    [[3; 0; 7; 0; 0; 0; 7; 0; 0]; [1; 2]]
  = Ok [[-100; 3; 0; 7; 0; 0; 0; 7; 0; 0; 0; -100]; [-100; 1; 2; -100]].
Proof. reflexivity. Qed.

(** ** Further properties of the post-processing *)

Lemma comprehension_app {A B} (f : A → result B) (cond : A → bool)
    (xs ys : list A) :
  comprehension f cond (xs ++ ys)
  = (a ← comprehension f cond xs; b ← comprehension f cond ys; Ok (a ++ b)).
Proof.
  induction xs as [|x xs IH]; cbn.
  - by destruct (comprehension f cond ys).
  - destruct (cond x); [|done].
    destruct (f x) as [y|e]; [|done]. cbn. rewrite IH.
    destruct (comprehension f cond xs) as [a|e]; [|done]. cbn.
    by destruct (comprehension f cond ys).
Qed.

Lemma comprehension_none {A B} (f : A → result B) (cond : A → bool)
    (xs : list A) :
  Forall (λ x, cond x = false) xs → comprehension f cond xs = Ok [].
Proof. induction 1 as [|x xs Hx _ IH]; [done|]. cbn. by rewrite Hx. Qed.

(** Two comprehensions that keep corresponding items and treat them alike
    give the same result. *)
Lemma comprehension_Forall2_ext {A A' B} (f : A → result B)
    (f' : A' → result B) (cond : A → bool) (cond' : A' → bool)
    (xs : list A) (xs' : list A') :
  Forall2 (λ x x', cond x = cond' x' ∧ (cond x = true → f x = f' x'))
    xs xs' →
  comprehension f cond xs = comprehension f' cond' xs'.
Proof.
  induction 1 as [|x x' xs xs' [Hc Hf] _ IH]; [done|].
  cbn. rewrite <- Hc, IH. destruct (cond x); [|done]. by rewrite Hf.
Qed.

Lemma raise_eq {A} (e e' : exn) : @Raise A e = Raise e'.
Proof. by destruct e, e'. Qed.

(** X6.  Batches gathered separately and then concatenated are
    post-processed to the concatenation of their results: with as many
    rows of predictions as of labels in the first batch, the rows of the
    joint batch are those of the first followed by those of the second,
    and the joint call fails exactly when one of the two fails. *)
Theorem postprocess_concat (label_names : list string)
    (predictions1 predictions2 labels1 labels2 : list (list Z)) :
  length predictions1 = length labels1 →
  postprocess label_names (predictions1 ++ predictions2)
    (labels1 ++ labels2)
  = ('(true_labels1, true_predictions1) ←
       postprocess label_names predictions1 labels1;
     '(true_labels2, true_predictions2) ←
       postprocess label_names predictions2 labels2;
     Ok (true_labels1 ++ true_labels2,
         true_predictions1 ++ true_predictions2)).
Proof.
  intros Hlen. unfold postprocess.
  rewrite zip_with_app by done. rewrite !comprehension_app.
  destruct (comprehension _ _ labels1) as [tl1|e1]; [|done].
  destruct (comprehension _ _ (zip predictions1 labels1)) as [tp1|e2];
    destruct (comprehension _ _ labels2) as [tl2|e3];
    destruct (comprehension _ _ (zip predictions2 labels2)) as [tp2|e4];
    cbn; try done; apply raise_eq.
Qed.

Lemma postprocess_concat_witness :
  postprocess conll2003_label_names ([[3; 0]] ++ [[1; 2]])
    ([[3; -100]] ++ [[-100; 2]])
  = ('(true_labels1, true_predictions1) ←
       postprocess conll2003_label_names [[3; 0]] [[3; -100]];
     '(true_labels2, true_predictions2) ←
       postprocess conll2003_label_names [[1; 2]] [[-100; 2]];
     Ok (true_labels1 ++ true_labels2,
         true_predictions1 ++ true_predictions2)).
Proof.
  apply (postprocess_concat conll2003_label_names [[3; 0]] [[1; 2]]
           [[3; -100]] [[-100; 2]]).
  reflexivity.
Defined.

Lemma padded_row_labels (label_names : list string) (label : list Z)
    (k : nat) :
  comprehension (λ l, getitem label_names l) (λ l, bool_decide (l ≠ -100))
    (label ++ replicate k (-100))
  = comprehension (λ l, getitem label_names l)
      (λ l, bool_decide (l ≠ -100)) label.
Proof.
  rewrite comprehension_app, (comprehension_none _ _ (replicate k (-100))).
  - destruct (comprehension _ _ label) as [a|e]; [|done]. cbn.
    by rewrite app_nil_r.
  - apply Forall_replicate. by apply bool_decide_eq_false_2; intros [].
Qed.

Lemma padded_row_predictions (label_names : list string)
    (prediction label : list Z) (k : nat) (x : Z) :
  length prediction = length label →
  comprehension (λ '(p, l), getitem label_names p)
    (λ '(p, l), bool_decide (l ≠ -100))
    (zip (prediction ++ replicate k x) (label ++ replicate k (-100)))
  = comprehension (λ '(p, l), getitem label_names p)
      (λ '(p, l), bool_decide (l ≠ -100)) (zip prediction label).
Proof.
  intros Hlen. rewrite zip_with_app by done.
  rewrite comprehension_app, (comprehension_none _ _ (zip (replicate k x) _)).
  - destruct (comprehension _ _ (zip prediction label)) as [a|e]; [|done].
    cbn. by rewrite app_nil_r.
  - apply Forall_forall. intros [p l] [i Hi]%list_elem_of_lookup.
    apply lookup_zip_with_Some in Hi as (p' & l' & [= <- <-] & _ & Hl).
    apply lookup_replicate in Hl as [-> _].
    by apply bool_decide_eq_false_2; intros [].
Qed.

(** X7.  Padding every row of an equal-shaped pair of batches on the
    right, the labels with [-100] and the predictions with any value, as
    done before gathering, does not change what [postprocess] returns or
    whether it fails. *)
Theorem postprocess_padding (label_names : list string)
    (predictions labels : list (list Z)) (k : nat) (x : Z) :
  equal_shape predictions labels →
  postprocess label_names
    ((λ prediction, prediction ++ replicate k x) <$> predictions)
    ((λ label, label ++ replicate k (-100)) <$> labels)
  = postprocess label_names predictions labels.
Proof.
  intros Hshape. unfold postprocess.
  rewrite (comprehension_Forall2_ext _
             (λ label,
                comprehension (λ l, getitem label_names l)
                  (λ l, bool_decide (l ≠ -100)) label)
             _ (λ _, true)
             ((λ label, label ++ replicate k (-100)) <$> labels) labels).
  2:{ apply Forall2_fmap_l, Forall_Forall2_diag, Forall_forall.
      intros label _. split; [done|]. intros _. apply padded_row_labels. }
  destruct (comprehension _ _ labels) as [true_labels|e]; [|done]. cbn.
  rewrite (comprehension_Forall2_ext _
             (λ '(prediction, label),
                comprehension (λ '(p, l), getitem label_names p)
                  (λ '(p, l), bool_decide (l ≠ -100))
                  (zip prediction label))
             _ (λ _, true) _ (zip predictions labels)); [done|].
  clear true_labels.
  induction Hshape as [|prediction label predictions labels Hrow _ IH];
    [constructor|].
  cbn. constructor; [|exact IH].
  split; [done|]. intros _. by apply padded_row_predictions.
Qed.

Lemma postprocess_padding_witness :
  postprocess conll2003_label_names
    ((λ prediction, prediction ++ replicate 2 (-100)) <$> [[3; 0]; [1; 2]])
    ((λ label, label ++ replicate 2 (-100)) <$> [[3; -100]; [1; 2]])
  = postprocess conll2003_label_names [[3; 0]; [1; 2]] [[3; -100]; [1; 2]].
Proof.
  apply (postprocess_padding conll2003_label_names [[3; 0]; [1; 2]]
           [[3; -100]; [1; 2]] 2 (-100)).
  repeat constructor.
Defined.

(** X8.  A prediction at a position whose gold label is [-100] is never
    looked at: two batches of predictions with rows of the same lengths
    that agree wherever the gold label is not [-100] are post-processed to
    the same result, failures included. *)
Theorem postprocess_ignores_masked_predictions (label_names : list string)
    (predictions1 predictions2 labels : list (list Z)) :
  length predictions1 = length predictions2 →
  (∀ r prediction1 prediction2 label,
     predictions1 !! r = Some prediction1 →
     predictions2 !! r = Some prediction2 →
     labels !! r = Some label →
     agree_on_kept prediction1 prediction2 label) →
  postprocess label_names predictions1 labels
  = postprocess label_names predictions2 labels.
Proof.
  intros Hlen Hagree. unfold postprocess.
  destruct (comprehension _ _ labels) as [true_labels|e]; [|done]. cbn.
  rewrite (comprehension_Forall2_ext _
             (λ '(prediction, label),
                comprehension (λ '(p, l), getitem label_names p)
                  (λ '(p, l), bool_decide (l ≠ -100))
                  (zip prediction label))
             _ (λ _, true) _ (zip predictions2 labels)); [done|].
  apply Forall2_same_length_lookup.
  split; [rewrite !length_zip_with; lia|].
  intros r [p1 lab] [p2 lab'] H1 H2.
  apply lookup_zip_with_Some in H1 as (? & ? & [= <- <-] & Hp1 & Hl).
  apply lookup_zip_with_Some in H2 as (? & ? & [= <- <-] & Hp2 & Hl').
  assert (lab' = lab) as -> by congruence.
  split; [done|]. intros _.
  destruct (Hagree r p1 p2 lab Hp1 Hp2 Hl) as [Hlen12 Hkept].
  apply comprehension_Forall2_ext, Forall2_same_length_lookup.
  split; [rewrite !length_zip_with; lia|].
  intros i [a l] [a' l'] Ha Ha'.
  apply lookup_zip_with_Some in Ha as (? & ? & [= <- <-] & Hai & Hli).
  apply lookup_zip_with_Some in Ha' as (? & ? & [= <- <-] & Hai' & Hli').
  assert (l' = l) as -> by congruence.
  split; [done|]. intros Hne%bool_decide_eq_true.
  specialize (Hkept i l Hli Hne). congruence.
Qed.

Lemma postprocess_ignores_masked_predictions_witness :
  postprocess conll2003_label_names [[57; 3; 0; -4]] [[-100; 3; 0; -100]]
  = postprocess conll2003_label_names [[0; 3; 0; 0]] [[-100; 3; 0; -100]].
Proof.
  apply (postprocess_ignores_masked_predictions conll2003_label_names
           [[57; 3; 0; -4]] [[0; 3; 0; 0]] [[-100; 3; 0; -100]]).
  - reflexivity.
  - intros r p1 p2 lab H1 H2 H3. enum_lookups.
    split; [reflexivity|]. intros i l Hi Hne.
    destruct i as [|[|[|[|i]]]]; cbn in Hi; try done;
      injection Hi as <-; done.
Defined.

(** ** The evaluation step of the training loop *)

Lemma compute_metrics_call_unfold {Logit} (argmax : list Logit → Z)
    label_names logits labels :
  compute_metrics_call argmax label_names (logits, labels)
  = ('(true_labels, true_predictions) ←
       postprocess label_names (np_argmax argmax logits) labels;
     Ok (MetricBatch true_predictions true_labels)).
Proof. reflexivity. Qed.

(** X9.  The evaluation step binds the pair returned by [postprocess] in
    the opposite order: for equal-shaped batches with valid surviving
    codes, what it passes to the metric as [predictions] are the names of
    the gold labels at the kept positions and what it passes as
    [references] are the names of the predicted labels there, that is the
    two arguments of the call made by [compute_metrics], exchanged. *)
Theorem evaluation_step_arguments (label_names : list string)
    (predictions labels : list (list Z)) :
  equal_shape predictions labels →
  (∀ c, surviving predictions labels c → valid_id label_names c) →
  ∃ batch,
    evaluation_step label_names predictions labels = Ok batch
    ∧ (∀ r prediction label,
         predictions !! r = Some prediction → labels !! r = Some label →
         kw_predictions batch !! r
         = Some (row_names (name_of label_names) label label)
         ∧ kw_references batch !! r
           = Some (row_names (name_of label_names) prediction label))
    ∧ (∀ (Logit : Type) (argmax : list Logit → Z) logits,
         np_argmax argmax logits = predictions →
         ∃ batch',
           compute_metrics_call argmax label_names (logits, labels)
           = Ok batch'
           ∧ kw_predictions batch = kw_references batch'
           ∧ kw_references batch = kw_predictions batch').
Proof.
  intros Hshape Hvalid.
  pose proof (postprocess_surviving label_names (name_of label_names)
                predictions labels) as Hpost.
  specialize (Hpost ltac:(intros c Hc; by apply getitem_name_of, Hvalid)).
  unfold evaluation_step. rewrite Hpost.
  eexists. split; [reflexivity|]. cbn [kw_predictions kw_references].
  split.
  - intros r prediction label Hp Hl.
    rewrite !list_lookup_fmap, Hl.
    rewrite (equal_shape_zip_lookup _ _ _ _ _ Hp Hl). cbn.
    eapply Forall2_lookup_lr in Hshape; [|done..]. cbn in Hshape.
    by rewrite Hshape, firstn_all.
  - intros Logit argmax logits <-.
    rewrite compute_metrics_call_unfold, Hpost. cbn. by eexists.
Qed.

Lemma evaluation_step_arguments_witness :
  ∃ batch,
    evaluation_step conll2003_label_names [[0; 3; 0; 5]]
      [[-100; 3; 7; -100]]
    = Ok batch
    ∧ kw_predictions batch !! 0%nat = Some ["B-ORG"; "B-MISC"]%string
    ∧ kw_references batch !! 0%nat = Some ["B-ORG"; "O"]%string.
Proof.
  destruct (evaluation_step_arguments conll2003_label_names
              [[0; 3; 0; 5]] [[-100; 3; 7; -100]])
    as (batch & Hb & Hrows & _).
  - repeat constructor.
  - solve_surviving.
  - exists batch. split; [exact Hb|].
    exact (Hrows 0%nat [0; 3; 0; 5] [-100; 3; 7; -100] eq_refl eq_refl).
Defined.

(** ** The two dictionaries *)

Section dict_facts.
Context {K V : Type} `{!EqDecision K}.
Implicit Types (d : list (K * V)) (k : K) (v : V).

Lemma get_setitem d k v k' :
  get (setitem d k v) k' = if decide (k = k') then Some v else get d k'.
Proof.
  induction d as [|[k0 v0] d IH]; cbn.
  - by destruct (decide (k = k')).
  - destruct (decide (k0 = k)) as [->|Hne]; cbn.
    + by destruct (decide (k = k')).
    + destruct (decide (k0 = k')) as [->|Hne'].
      * by rewrite decide_False by done.
      * done.
Qed.

Lemma setitem_fresh d k v : get d k = None → setitem d k v = d ++ [(k, v)].
Proof.
  induction d as [|[k0 v0] d IH]; cbn; [done|].
  destruct (decide (k0 = k)); [done|]. intros H. by rewrite IH.
Qed.

Lemma dict_comprehension_snoc {A} (key : A → K) (val : A → V)
    (xs : list A) (x : A) :
  dict_comprehension key val (xs ++ [x])
  = setitem (dict_comprehension key val xs) (key x) (val x).
Proof. unfold dict_comprehension. by rewrite foldl_snoc. Qed.
End dict_facts.

Lemma enumerate_snoc {A} (xs : list A) (x : A) :
  enumerate (xs ++ [x]) = enumerate xs ++ [(length xs, x)].
Proof.
  unfold enumerate. rewrite imap_app. cbn. by rewrite Nat.add_0_r.
Qed.

Lemma id2label_snoc (label_names : list string) (s : string) :
  id2label (label_names ++ [s])
  = setitem (id2label label_names) (Z.of_nat (length label_names)) s.
Proof.
  unfold id2label. by rewrite enumerate_snoc, dict_comprehension_snoc.
Qed.

Lemma get_id2label (label_names : list string) (i : Z) :
  get (id2label label_names) i
  = if decide (0 ≤ i) then label_names !! Z.to_nat i else None.
Proof.
  induction label_names as [|s label_names IH] using rev_ind.
  - cbn. by destruct (decide (0 ≤ i)).
  - rewrite id2label_snoc, get_setitem, IH.
    destruct (decide (Z.of_nat (length label_names) = i)) as [<-|Hne].
    + rewrite decide_True by lia.
      by rewrite Nat2Z.id, lookup_app_r, Nat.sub_diag by lia.
    + destruct (decide (0 ≤ i)); [|done].
      destruct (decide (Z.to_nat i < length label_names)%nat).
      * by rewrite lookup_app_l by done.
      * rewrite !lookup_ge_None_2; [done|..].
        -- rewrite length_app. cbn. lia.
        -- lia.
Qed.

(** X10.  [id2label] has exactly the keys [0 .. n-1], key [i] holding
    [label_names[i]]: on these ids it agrees with indexing the list, and,
    unlike the list, it has no entry for a negative id. *)
Theorem id2label_lookup (label_names : list string) (i : Z) :
  (0 ≤ i < Z.of_nat (length label_names) →
   ∃ s, get (id2label label_names) i = Some s
        ∧ getitem label_names i = Ok s)
  ∧ (i < 0 ∨ Z.of_nat (length label_names) ≤ i →
     get (id2label label_names) i = None)
  ∧ (- Z.of_nat (length label_names) ≤ i < 0 →
     ∃ s, getitem label_names i = Ok s).
Proof.
  rewrite get_id2label. split_and!.
  - intros [H0 Hn]. rewrite decide_True by done.
    destruct (lookup_lt_is_Some_2 label_names (Z.to_nat i)) as [s Hs];
      [lia|].
    exists s. split; [done|]. by rewrite getitem_nonneg, Hs.
  - intros [Hneg|Hge]; [by rewrite decide_False by lia|].
    destruct (decide (0 ≤ i)); [|done]. apply lookup_ge_None_2. lia.
  - intros Hi. apply getitem_valid. lia.
Qed.

Lemma id2label_lookup_witness :
  (∃ s, get (id2label conll2003_label_names) 7 = Some s
        ∧ getitem conll2003_label_names 7 = Ok s)
  ∧ get (id2label conll2003_label_names) (-1) = None
  ∧ ∃ s, getitem conll2003_label_names (-1) = Ok s.
Proof.
  split_and!.
  - apply (proj1 (id2label_lookup conll2003_label_names 7)). cbn. lia.
  - apply (proj1 (proj2 (id2label_lookup conll2003_label_names (-1)))).
    left. lia.
  - apply (proj2 (proj2 (id2label_lookup conll2003_label_names (-1)))).
    cbn. lia.
Defined.

Lemma id2label_items (label_names : list string) :
  items (id2label label_names)
  = imap (λ i s, (Z.of_nat i, s)) label_names.
Proof.
  unfold items.
  induction label_names as [|s label_names IH] using rev_ind; [done|].
  rewrite id2label_snoc, setitem_fresh, IH.
  - rewrite imap_app. cbn. by rewrite Nat.add_0_r.
  - rewrite get_id2label, decide_True by lia.
    apply lookup_ge_None_2. lia.
Qed.

Lemma label2id_snoc (label_names : list string) (s : string) :
  label2id (label_names ++ [s])
  = setitem (label2id label_names) s (Z.of_nat (length label_names)).
Proof.
  unfold label2id. rewrite !id2label_items, imap_app. cbn.
  by rewrite dict_comprehension_snoc, Nat.add_0_r.
Qed.

Lemma get_label2id (label_names : list string) (s : string) (i : Z) :
  get (label2id label_names) s = Some i
  ↔ 0 ≤ i
    ∧ label_names !! Z.to_nat i = Some s
    ∧ ∀ j, (Z.to_nat i < j)%nat → label_names !! j ≠ Some s.
Proof.
  revert i. induction label_names as [|t label_names IH] using rev_ind;
    intros i.
  - cbn. split; [done|]. by intros (_ & ? & _).
  - rewrite label2id_snoc, get_setitem.
    destruct (decide (t = s)) as [->|Hne].
    + split.
      * intros [= <-]. split; [lia|]. rewrite Nat2Z.id. split.
        -- by rewrite lookup_app_r, Nat.sub_diag by lia.
        -- intros j Hj. rewrite lookup_ge_None_2; [done|].
           rewrite length_app. cbn. lia.
      * intros (H0 & Hi & Hlast). f_equal.
        apply lookup_lt_Some in Hi as Hlt.
        rewrite length_app in Hlt. cbn in Hlt.
        destruct (decide (Z.to_nat i = length label_names)); [lia|].
        exfalso. apply (Hlast (length label_names)); [lia|].
        by rewrite lookup_app_r, Nat.sub_diag by lia.
    + rewrite IH. split.
      * intros (H0 & Hi & Hlast). apply lookup_lt_Some in Hi as Hlt.
        split; [done|]. split; [by rewrite lookup_app_l|].
        intros j Hj.
        destruct (decide (j < length label_names)%nat).
        -- rewrite lookup_app_l by done. by apply Hlast.
        -- destruct (decide (j = length label_names)) as [->|].
           ++ rewrite lookup_app_r, Nat.sub_diag by lia. cbn. congruence.
           ++ rewrite lookup_ge_None_2; [done|].
              rewrite length_app. cbn. lia.
      * intros (H0 & Hi & Hlast).
        assert (Z.to_nat i < length label_names)%nat as Hlt.
        { apply lookup_lt_Some in Hi as Hlt.
          rewrite length_app in Hlt. cbn in Hlt.
          destruct (decide (Z.to_nat i = length label_names)) as [Heq|];
            [|lia].
          rewrite Heq, lookup_app_r, Nat.sub_diag in Hi by lia.
          cbn in Hi. congruence. }
        split; [done|]. rewrite lookup_app_l in Hi by done.
        split; [done|]. intros j Hj Hjs.
        apply (Hlast j Hj). apply lookup_lt_Some in Hjs as Hjlt.
        by rewrite lookup_app_l.
Qed.

(** X11.  [label2id] maps a name to the index of its last occurrence in
    [label_names]; it has an entry for exactly the names of the table, and
    looking the id it gives up in [id2label] returns the name. *)
Theorem label2id_lookup (label_names : list string) (s : string) :
  (∀ i, get (label2id label_names) s = Some i
        ↔ 0 ≤ i
          ∧ label_names !! Z.to_nat i = Some s
          ∧ ∀ j, (Z.to_nat i < j)%nat → label_names !! j ≠ Some s)
  ∧ (is_Some (get (label2id label_names) s) ↔ s ∈ label_names)
  ∧ (∀ i, get (label2id label_names) s = Some i →
          get (id2label label_names) i = Some s).
Proof.
  split_and!.
  - apply get_label2id.
  - split.
    + intros [i (_ & Hi & _)%get_label2id].
      by eapply list_elem_of_lookup_2.
    + clear. induction label_names as [|t label_names IH] using rev_ind.
      * by intros ?%elem_of_nil.
      * rewrite label2id_snoc, get_setitem. intros Hs.
        destruct (decide (t = s)); [by eexists|].
        apply IH. apply elem_of_app in Hs as [Hs|Hs]; [done|].
        apply list_elem_of_singleton in Hs. congruence.
  - intros i (H0 & Hi & _)%get_label2id.
    by rewrite get_id2label, decide_True.
Qed.

(** X12.  When no name occurs twice in [label_names], [label2id] inverts
    [id2label]: the name stored under id [i] is mapped back to [i]. *)
Theorem label2id_id2label (label_names : list string) (i : Z) (s : string) :
  NoDup label_names →
  get (id2label label_names) i = Some s →
  get (label2id label_names) s = Some i.
Proof.
  intros Hnodup. rewrite get_id2label.
  destruct (decide (0 ≤ i)); [|done]. intros Hi.
  apply get_label2id. split; [done|]. split; [done|].
  intros j Hj Hjs.
  pose proof (NoDup_lookup _ _ _ _ Hnodup Hi Hjs). lia.
Qed.

Lemma label2id_id2label_witness :
  get (label2id conll2003_label_names) "B-MISC" = Some 7.
Proof.
  apply (label2id_id2label conll2003_label_names 7 "B-MISC").
  - apply (bool_decide_eq_true_1 _). vm_compute. reflexivity.
  - reflexivity.
Defined.

Example label2id_duplicate_name :
  get (id2label ["O"; "B-PER"; "O"]%string) 0 = Some "O"%string
  ∧ get (label2id ["O"; "B-PER"; "O"]%string) "O" = Some 2.
Proof. split; reflexivity. Qed.

(** ** The two printed lines *)

Lemma string_length_append (s t : string) :
  String.length (s +:+ t) = (String.length s + String.length t)%nat.
Proof.
  induction s as [|a s IH]; [done|].
  change (String a s +:+ t) with (String a (s +:+ t)).
  cbn [String.length]. by rewrite IH.
Qed.

Lemma string_append_assoc (s t u : string) :
  (s +:+ t) +:+ u = s +:+ (t +:+ u).
Proof.
  induction s as [|a s IH]; [done|].
  change ((String a s +:+ t) +:+ u) with (String a ((s +:+ t) +:+ u)).
  by rewrite IH.
Qed.

Lemma string_append_nil_r (s : string) : s +:+ EmptyString = s.
Proof.
  induction s as [|a s IH]; [done|].
  change (String a s +:+ EmptyString) with (String a (s +:+ EmptyString)).
  by rewrite IH.
Qed.

Lemma str_mul_space_length (n : Z) :
  String.length (str_mul " " n) = Z.to_nat n.
Proof.
  unfold str_mul. induction (Z.to_nat n) as [|k IH]; [done|].
  rewrite Nat.iter_succ, string_length_append, IH. done.
Qed.

Lemma str_mul_space_pos (n : Z) :
  1 ≤ n → str_mul " " n = " " +:+ str_mul " " (n - 1).
Proof.
  intros Hn. unfold str_mul.
  replace (Z.to_nat n) with (S (Z.to_nat (n - 1))) by lia. done.
Qed.

Lemma for_each_app {St A} (body : St → A → result St) (st : St)
    (xs ys : list A) :
  for_each body st (xs ++ ys)
  = (st' ← for_each body st xs; for_each body st' ys).
Proof.
  revert st. induction xs as [|x xs IH]; intros st; [done|].
  cbn. destruct (body st x) as [st'|e]; [|done]. cbn. apply IH.
Qed.

Lemma lines_body_inv label_names st word label st' :
  lines_body label_names st (word, label) = Ok st' →
  ∃ full_label pad1 pad2,
    getitem label_names label = Ok full_label
    ∧ line1 st' = line1 st +:+ (word +:+ (" " +:+ pad1))
    ∧ line2 st' = line2 st +:+ (full_label +:+ (" " +:+ pad2))
    ∧ (String.length word + String.length pad1
       = String.length full_label + String.length pad2)%nat.
Proof.
  unfold lines_body. intros H.
  apply bind_Ok_inv in H as (full_label & Hname & H). injection H as <-.
  set (n1 := len word `max` len full_label - len word + 1).
  set (n2 := len word `max` len full_label - len full_label + 1).
  exists full_label, (str_mul " " (n1 - 1)), (str_mul " " (n2 - 1)).
  split; [done|]. cbn [line1 line2].
  rewrite <- !str_mul_space_pos by (unfold n1, n2, len; lia).
  split; [done|]. split; [done|].
  rewrite !str_mul_space_length. unfold n1, n2, len. lia.
Qed.

Lemma label_lines_loop_inv label_names items st st' :
  for_each (lines_body label_names) st items = Ok st' →
  ∃ more1 more2,
    line1 st' = line1 st +:+ more1
    ∧ line2 st' = line2 st +:+ more2
    ∧ String.length more1 = String.length more2.
Proof.
  revert st. induction items as [|[word label] items IH]; intros st H.
  - injection H as <-. exists EmptyString, EmptyString.
    by rewrite !string_append_nil_r.
  - cbn [for_each] in H. apply bind_Ok_inv in H as (st1 & Hbody & H).
    apply lines_body_inv in Hbody
      as (full_label & pad1 & pad2 & _ & H1 & H2 & Hlen).
    destruct (IH _ H) as (more1 & more2 & Hm1 & Hm2 & Hmlen).
    exists ((word +:+ (" " +:+ pad1)) +:+ more1),
           ((full_label +:+ (" " +:+ pad2)) +:+ more2).
    rewrite Hm1, Hm2, H1, H2, !string_append_assoc.
    split; [done|]. split; [done|].
    rewrite !string_length_append. cbn [String.length]. lia.
Qed.

(** X13.  When the cell prints, its two lines have the same length, and
    every word starts in [line1] at the column at which its label name
    starts in [line2], each of the two being followed by at least one
    space. *)
Theorem label_lines_columns (label_names : list string)
    (words : list string) (labels : list Z) (out : lines) :
  label_lines label_names words labels = Ok out →
  String.length (line1 out) = String.length (line2 out)
  ∧ ∀ k word label,
      words !! k = Some word → labels !! k = Some label →
      ∃ full_label before1 before2 after1 after2,
        getitem label_names label = Ok full_label
        ∧ line1 out = before1 +:+ (word +:+ (" " +:+ after1))
        ∧ line2 out = before2 +:+ (full_label +:+ (" " +:+ after2))
        ∧ String.length before1 = String.length before2.
Proof.
  unfold label_lines. intros H. split.
  - apply label_lines_loop_inv in H as (more1 & more2 & -> & -> & Hlen).
    done.
  - intros k word label Hw Hl.
    assert (zip words labels !! k = Some (word, label)) as Hk.
    { apply lookup_zip_with_Some. by exists word, label. }
    rewrite <- (take_drop_middle _ _ _ Hk), for_each_app in H.
    apply bind_Ok_inv in H as (st1 & Hpre & H).
    cbn [for_each] in H. apply bind_Ok_inv in H as (st2 & Hbody & H).
    apply label_lines_loop_inv in Hpre as (b1 & b2 & Hb1 & Hb2 & Hblen).
    apply lines_body_inv in Hbody
      as (full_label & pad1 & pad2 & Hname & H1 & H2 & _).
    apply label_lines_loop_inv in H as (m1 & m2 & Hm1 & Hm2 & _).
    exists full_label, (line1 st1), (line2 st1), (pad1 +:+ m1),
      (pad2 +:+ m2).
    split; [done|]. rewrite Hm1, Hm2, H1, H2.
    split_and!.
    + by rewrite !string_append_assoc.
    + by rewrite !string_append_assoc.
    + by rewrite Hb1, Hb2.
Qed.

Example label_lines_notebook :
  label_lines conll2003_label_names
    ["EU"; "rejects"; "German"; "call"; "to"; "boycott"; "British"; "lamb";
     "."]%string
    [3; 0; 7; 0; 0; 0; 7; 0; 0]
  = Ok (Lines "EU    rejects German call to boycott British lamb . "
          "B-ORG O       B-MISC O    O  O       B-MISC  O    O ").
Proof. reflexivity. Qed.

Lemma label_lines_columns_witness :
  String.length
    (line1 (Lines "EU    rejects German " "B-ORG O       B-MISC "))
  = String.length
      (line2 (Lines "EU    rejects German " "B-ORG O       B-MISC ")).
Proof.
  apply (label_lines_columns conll2003_label_names
           ["EU"; "rejects"; "German"]%string [3; 0; 7]).
  reflexivity.
Defined.

(** ** Aligned labels as gold labels of the metric *)

Lemma align_length labels word_ids out :
  align_labels_with_tokens labels word_ids = Ok out →
  length out = length word_ids.
Proof.
  rewrite align_labels_with_tokens_from. apply align_from_length.
Qed.

Lemma align_output_codes (n : Z) labels word_ids out :
  paired n →
  Forall (label_code n) labels →
  align_labels_with_tokens labels word_ids = Ok out →
  Forall (λ v, v = -100 ∨ label_code n v) out.
Proof.
  intros Hpaired Hlabels Hout. apply Forall_lookup. intros i v Hv.
  pose proof (align_length _ _ _ Hout) as Hlen.
  rewrite align_labels_with_tokens_from in Hout.
  destruct (lookup_lt_is_Some_2 word_ids i) as [cur Hcur].
  { apply lookup_lt_Some in Hv. lia. }
  destruct (align_from_lookup _ _ _ _ _ _ Hout Hcur) as (v' & Hv' & Ht).
  assert (v' = v) as -> by congruence.
  destruct cur as [w|]; cbn in Ht; [|left; by injection Ht as <-].
  apply bind_Ok_inv in Ht as (c & Hc & Ht). injection Ht as <-. right.
  assert (label_code n c) as Hcode.
  { eapply Forall_forall; [exact Hlabels|]. by eapply getitem_elem_of. }
  unfold inside. case_decide; [|done].
  destruct (Z.odd c) eqn:Hodd; [|done]. by apply Hpaired.
Qed.

Lemma kept_positions_aligned labels word_ids out :
  Forall (λ c, 0 ≤ c) labels →
  align_labels_with_tokens labels word_ids = Ok out →
  length (kept_positions out)
  = length (filter (λ o : option Z, o ≠ None) word_ids).
Proof.
  intros Hpos Hout. unfold kept_positions.
  rewrite (align_length _ _ _ Hout).
  pose proof (fmap_filter_seq (λ _ : option Z, ()) (λ o, o ≠ None) word_ids
                (λ _, ()) (λ i, out !! i ≠ Some (-100)) _) as Heq.
  rewrite <- (length_fmap (λ _, ()) (filter _ word_ids)), Heq.
  - by rewrite length_fmap.
  - intros i cur Hcur. split; [done|].
    rewrite (align_ignore_marker labels word_ids out i Hpos Hout), Hcur.
    split; congruence.
Qed.

(** X15.  Labels produced by the alignment can always be decoded: with a
    paired table, word labels that are valid ids and a row of valid
    predictions of the same length, [postprocess] on the aligned row
    returns, and keeps exactly as many positions as the word-id map has
    tokens that belong to a word. *)
Theorem aligned_labels_postprocess (label_names : list string)
    (labels : list Z) (word_ids : list (option Z))
    (out prediction : list Z) :
  paired (Z.of_nat (length label_names)) →
  Forall (valid_id label_names) labels →
  align_labels_with_tokens labels word_ids = Ok out →
  length prediction = length out →
  Forall (valid_id label_names) prediction →
  ∃ gold predicted,
    postprocess label_names [prediction] [out] = Ok ([gold], [predicted])
    ∧ length gold
      = length (filter (λ o : option Z, o ≠ None) word_ids)
    ∧ length predicted = length gold.
Proof.
  intros Hpaired Hlabels Hout Hlen Hpred.
  rewrite (postprocess_surviving label_names (name_of label_names)).
  - cbn [fmap list_fmap zip_with fst snd]. rewrite Hlen, firstn_all.
    eexists _, _. split; [done|]. unfold row_names.
    rewrite !length_fmap. split; [|done].
    eapply kept_positions_aligned; [|exact Hout].
    eapply Forall_impl; [exact Hlabels|]. by intros c [? _].
  - intros c Hc. apply getitem_name_of.
    destruct Hc as [(r & label & i & Hr & Hi & Hne)
                   |(r & p & label & i & l & Hr & _ & Hi & _)].
    + destruct r as [|r]; [|by destruct r]. injection Hr as <-.
      pose proof (align_output_codes _ _ _ _ Hpaired Hlabels Hout) as Hall.
      eapply Forall_lookup_1 in Hall; [|exact Hi].
      by destruct Hall.
    + destruct r as [|r]; [|by destruct r]. injection Hr as <-.
      by eapply Forall_lookup_1 in Hpred.
Qed.

Lemma aligned_labels_postprocess_witness :
  ∃ gold predicted,
    postprocess conll2003_label_names [[0; 3; 0; 8; 8; 0]]
      [[-100; 3; 0; 7; 8; -100]]
    = Ok ([gold], [predicted])
    ∧ length gold
      = length (filter (λ o : option Z, o ≠ None)
                  [None; Some 0; Some 1; Some 2; Some 2; None])
    ∧ length predicted = length gold.
Proof.
  apply (aligned_labels_postprocess conll2003_label_names [3; 0; 7]
           [None; Some 0; Some 1; Some 2; Some 2; None]
           [-100; 3; 0; 7; 8; -100] [0; 3; 0; 8; 8; 0]).
  - apply (paired_odd_table 4).
  - repeat constructor; cbn; lia.
  - reflexivity.
  - reflexivity.
  - repeat constructor; cbn; lia.
Defined.
